(** * Repository search: the indexing pipeline and the search facade

    A shallow embedding of [app/main.py] (class [RepoSearchApp]): the
    repository fetcher [clone_repo], the file walker and filter
    [index_repository], the orchestrator [index_repositories] and the search
    facade [search_files], with the path helpers of [os.path] they call.

    Conventions of the embedding.
    - A Python [str] is a [string] holding its UTF-8 encoding; a [string]
      that is not valid UTF-8 stands for a [str] with lone surrogates (what
      [os.walk] yields for a file name that is not UTF-8).  [bytes] are
      [list byte].
    - The object's mutable parts (the table behind the connection, the
      cursor, the working copies on disk, what was printed) are the fields
      of the record [App]; each method takes the state and returns the new
      one, with a [result] when it can raise.
    - The file system is modelled below the repositories root [repos_dir];
      the directories above it are taken to exist and to stay as they are.
    - External programs ([rm], [git]) are their exit status and their effect
      on the working copies; the full-text engine behind the [MATCH]
      operator is the interface [Engine]. *)

Set Warnings "-register-all".
From Stdlib Require Import Bool List ZArith Lia.
From Stdlib.Strings Require Import Ascii String Byte.
Import ListNotations.

Local Open Scope string_scope.
Local Open Scope Z_scope.

(** ** Exceptions and results *)

Inductive exn : Type :=
  | CalledProcessError (returncode : Z)
  | UnicodeDecodeError
  | UnicodeEncodeError
  | FileNotFoundError
  | PermissionError
  | ValueError
  | OverflowError
  | OperationalError.

Inductive result (A : Type) : Type :=
  | Return (a : A)
  | Raise (e : exn).

Arguments Return {A} a.
Arguments Raise {A} e.

Definition bind {A B : Type} (r : result A) (k : A -> result B) : result B :=
  match r with
  | Return a => k a
  | Raise e => Raise e
  end.

Notation "'let*' x ':=' r 'in' k" := (bind r (fun x => k))
  (at level 10, x name, r at level 100, k at level 200).

(** ** [os.path] on POSIX *)

Module PosixPath.

Definition sep : ascii := "/"%char.
Definition extsep : ascii := "."%char.

(** [p.rfind(c)]: the index of the last [c] in [p], or [-1]. *)
Fixpoint rfind (c : ascii) (p : string) : Z :=
  match p with
  | EmptyString => -1
  | String a r =>
      let i := rfind c r in
      if 0 <=? i then i + 1 else if Ascii.eqb a c then 0 else -1
  end.

(** [p[i:]] and [p[:i]] for an index [0 <= i]. *)
Fixpoint slice_from (i : nat) (p : string) : string :=
  match i, p with
  | O, _ => p
  | S k, String _ r => slice_from k r
  | S _, EmptyString => EmptyString
  end.

Fixpoint slice_to (i : nat) (p : string) : string :=
  match i, p with
  | O, _ => EmptyString
  | S k, String a r => String a (slice_to k r)
  | S _, EmptyString => EmptyString
  end.

Definition slice (i j : nat) (p : string) : string :=
  slice_to (j - i) (slice_from i p).

Definition startswith (pre p : string) : bool := String.prefix pre p.

Fixpoint endswith_char (c : ascii) (p : string) : bool :=
  match p with
  | EmptyString => false
  | String a EmptyString => Ascii.eqb a c
  | String _ r => endswith_char c r
  end.

Fixpoint all_char (c : ascii) (p : string) : bool :=
  match p with
  | EmptyString => true
  | String a r => Ascii.eqb a c && all_char c r
  end.

(** [basename]: [i = p.rfind('/') + 1; return p[i:]]. *)
Definition basename (p : string) : string :=
  let i := rfind sep p + 1 in
  slice_from (Z.to_nat i) p.

(** [splitext] ([genericpath._splitext]): the extension starts at the last
    dot of the last segment, leading dots of that segment not counting. *)
Definition splitext (p : string) : string * string :=
  let sepIndex := rfind sep p in
  let dotIndex := rfind extsep p in
  if sepIndex <? dotIndex then
    if all_char extsep (slice (Z.to_nat (sepIndex + 1)) (Z.to_nat dotIndex) p)
    then (p, "")
    else (slice_to (Z.to_nat dotIndex) p, slice_from (Z.to_nat dotIndex) p)
  else (p, "").

(** [join(a, b)]. *)
Definition join (a b : string) : string :=
  if startswith "/" b then b
  else if String.eqb a "" || endswith_char sep a then a ++ b
  else a ++ "/" ++ b.

(** [join] applied to an unpacked list, as [relpath] calls it; the empty
    list is a [TypeError] in Python and never reached below. *)
Definition join_all (l : list string) : string :=
  match l with
  | [] => ""
  | a :: bs => fold_left join bs a
  end.

(** [p.split('/')]. *)
Fixpoint split (p : string) : list string :=
  match p with
  | EmptyString => [EmptyString]
  | String a r =>
      if Ascii.eqb a sep then EmptyString :: split r
      else match split r with
           | s :: ss => String a s :: ss
           | [] => [String a EmptyString]
           end
  end.

Definition isabs (p : string) : bool := startswith "/" p.

Definition last_is_dotdot (comps : list string) : bool :=
  match rev comps with
  | c :: _ => String.eqb c ".."
  | [] => false
  end.

(** One turn of the loop of [normpath] over the components. *)
Definition normpath_step (initial_slashes : nat) (new_comps : list string)
    (comp : string) : list string :=
  if String.eqb comp "" || String.eqb comp "." then new_comps
  else if negb (String.eqb comp "..")
          || (Nat.eqb initial_slashes 0 && Nat.eqb (List.length new_comps) 0)
          || last_is_dotdot new_comps
  then (new_comps ++ [comp])%list
  else removelast new_comps.

Definition normpath (path : string) : string :=
  if String.eqb path "" then "."
  else
    let initial_slashes :=
      if startswith "/" path then
        if startswith "//" path && negb (startswith "///" path)
        then 2%nat else 1%nat
      else 0%nat in
    let comps := fold_left (normpath_step initial_slashes) (split path) [] in
    let path := String.concat "/" comps in
    let path := slice_to initial_slashes "//" ++ path in
    if String.eqb path "" then "." else path.

(** [abspath], with the process's working directory [cwd] for
    [os.getcwd()]. *)
Definition abspath (cwd path : string) : string :=
  normpath (if isabs path then path else join cwd path).

Fixpoint commonprefix_len (a b : list string) : nat :=
  match a, b with
  | x :: a', y :: b' => if String.eqb x y then S (commonprefix_len a' b') else O
  | _, _ => O
  end.

Definition nonempty (s : string) : bool := negb (String.eqb s "").

(** [relpath(path, start)]. *)
Definition relpath (cwd path start : string) : result string :=
  if String.eqb path "" then Raise ValueError
  else
    let start_list := filter nonempty (split (abspath cwd start)) in
    let path_list := filter nonempty (split (abspath cwd path)) in
    let i := commonprefix_len start_list path_list in
    let rel_list :=
      (repeat ".." (List.length start_list - i)%nat ++ skipn i path_list)%list in
    match rel_list with
    | [] => Return "."
    | _ => Return (join_all rel_list)
    end.

End PosixPath.

(** ** Text: UTF-8 and universal newlines *)

Module Utf8.

Definition code (a : ascii) : N := N_of_ascii a.

Definition in_range (lo hi : N) (a : ascii) : bool :=
  ((lo <=? code a) && (code a <=? hi))%N.

Definition continuation (a : ascii) : bool := in_range 0x80 0xBF a.

(** The second byte of a three-byte and of a four-byte sequence: no
    overlong form, no surrogate, nothing above U+10FFFF. *)
Definition second_of_3 (a0 a1 : ascii) : bool :=
  if (code a0 =? 0xE0)%N then in_range 0xA0 0xBF a1
  else if (code a0 =? 0xED)%N then in_range 0x80 0x9F a1
  else continuation a1.

Definition second_of_4 (a0 a1 : ascii) : bool :=
  if (code a0 =? 0xF0)%N then in_range 0x90 0xBF a1
  else if (code a0 =? 0xF4)%N then in_range 0x80 0x8F a1
  else continuation a1.

(** What the strict ['utf-8'] codec accepts. *)
Fixpoint valid (s : string) : bool :=
  match s with
  | EmptyString => true
  | String a0 r0 =>
      if (code a0 <? 0x80)%N then valid r0
      else if in_range 0xC2 0xDF a0 then
        match r0 with
        | String a1 r1 => continuation a1 && valid r1
        | _ => false
        end
      else if in_range 0xE0 0xEF a0 then
        match r0 with
        | String a1 (String a2 r2) =>
            second_of_3 a0 a1 && continuation a2 && valid r2
        | _ => false
        end
      else if in_range 0xF0 0xF4 a0 then
        match r0 with
        | String a1 (String a2 (String a3 r3)) =>
            second_of_4 a0 a1 && continuation a2 && continuation a3 && valid r3
        | _ => false
        end
      else false
  end.

(** [bytes.decode('utf-8')]: the [str] of valid input is, in this
    embedding, the same sequence of bytes. *)
Definition decode (bs : list byte) : result string :=
  let s := string_of_list_byte bs in
  if valid s then Return s else Raise UnicodeDecodeError.

Definition CR : ascii := ascii_of_nat 13.
Definition LF : ascii := ascii_of_nat 10.

(** Text mode with [newline=None]: ["\r\n"] and a lone ["\r"] are read as
    ["\n"]. *)
Fixpoint universal_newlines (s : string) : string :=
  match s with
  | EmptyString => EmptyString
  | String a r =>
      if Ascii.eqb a CR then
        String LF
          match r with
          | String b r' =>
              if Ascii.eqb b LF then universal_newlines r'
              else universal_newlines r
          | EmptyString => EmptyString
          end
      else String a (universal_newlines r)
  end.

End Utf8.

(** ** Working copies on disk *)

(** A regular file: whether the process may read it, its bytes, and the
    text [datetime.fromtimestamp(st_mtime).isoformat()] gives for its
    modification time. *)
Record file : Type := {
  readable : bool;
  data : list byte;
  mtime_isoformat : string
}.

(** What a path below the repositories root names: a regular file, or a
    directory with its entries in the order [os.scandir] lists them.
    Symbolic links and special files are not modelled. *)
Inductive node : Type :=
  | File (f : file)
  | Dir (entries : list (string * node)).

Definition listing : Type := list (string * node).

Fixpoint lookup_entry (name : string) (es : listing) : option node :=
  match es with
  | [] => None
  | (n, x) :: es' => if String.eqb n name then Some x else lookup_entry name es'
  end.

Fixpoint remove_entry (name : string) (es : listing) : listing :=
  match es with
  | [] => []
  | (n, x) :: es' =>
      if String.eqb n name then remove_entry name es'
      else (n, x) :: remove_entry name es'
  end.

(** The entries of a directory that [os.walk] reports as [files]. *)
Fixpoint nondirs (es : listing) : list (string * file) :=
  match es with
  | [] => []
  | (n, File f) :: es' => (n, f) :: nondirs es'
  | (_, Dir _) :: es' => nondirs es'
  end.

(** [os.walk(top)], top-down: the directory's own [(root, files)] first,
    then the walk of each sub-directory in the order of the listing.  A
    [top] that is not a directory yields nothing. *)
Fixpoint walk (top : string) (n : node) {struct n}
  : list (string * list (string * file)) :=
  match n with
  | File _ => []
  | Dir es =>
      (top, nondirs es)
      :: (fix subdirs (l : listing) : list (string * list (string * file)) :=
            match l with
            | [] => []
            | (name, File _) :: l' => subdirs l'
            | (name, (Dir _) as d) :: l' =>
                (walk (PosixPath.join top name) d ++ subdirs l')%list
            end) es
  end.

(** ** The index store *)

(** One row of the table [file_contents], columns in the order of the
    [CREATE VIRTUAL TABLE] statement. *)
Record Row : Type := {
  repo_name : string;
  filepath : string;
  filename : string;
  content : string;
  last_modified : string
}.

Definition columns (r : Row) : list string :=
  [repo_name r; filepath r; filename r; content r; last_modified r].

(** A row as [fetchall] returns it:
    [(repo_name, filepath, filename, preview)]. *)
Definition Hit : Type := string * string * string * string.

Definition preview (h : Hit) : string := snd h.

(** The full-text engine behind the [MATCH] operator and the auxiliary
    function [snippet]: the parser of its query language ([None]: the query
    is rejected as malformed), the match of a parsed query against the
    columns of a row, and the snippet of a matching row: the text of the
    column of the given index, with the markers around the matches, the
    ellipsis and the number of tokens asked for. *)
Class Engine : Type := {
  fts5_query : Type;
  fts5_parse : string -> option fts5_query;
  fts5_match : fts5_query -> list string -> bool;
  fts5_snippet :
    fts5_query -> list string -> nat -> string -> string -> string -> Z
    -> string
}.

(** ** The application object *)

Inductive printed : Type :=
  | ErrorCloning (repo_url : string) (e : exn)
  | ErrorProcessing (filepath : string) (e : exn).

(** [repos_dir] and the working directory of the process never change;
    [root] is the listing of the directory [repos_dir] ([None] when the
    directory does not exist); [table] is [file_contents] as the connection
    sees it and [committed] what the last [commit] made durable; [cursor]
    holds the rows of the last [SELECT] not yet fetched. *)
Record App : Type := {
  repos_dir : string;
  cwd : string;
  root : option listing;
  table : list Row;
  committed : list Row;
  cursor : list Hit;
  stdout : list printed
}.

Definition set_root (x : option listing) (st : App) : App :=
  {| repos_dir := repos_dir st; cwd := cwd st; root := x;
     table := table st; committed := committed st; cursor := cursor st;
     stdout := stdout st |}.

Definition set_table (x : list Row) (st : App) : App :=
  {| repos_dir := repos_dir st; cwd := cwd st; root := root st;
     table := x; committed := committed st; cursor := cursor st;
     stdout := stdout st |}.

Definition set_cursor (x : list Hit) (st : App) : App :=
  {| repos_dir := repos_dir st; cwd := cwd st; root := root st;
     table := table st; committed := committed st; cursor := x;
     stdout := stdout st |}.

Definition print (x : printed) (st : App) : App :=
  {| repos_dir := repos_dir st; cwd := cwd st; root := root st;
     table := table st; committed := committed st; cursor := cursor st;
     stdout := (stdout st ++ [x])%list |}.

(** [self.conn.commit()]. *)
Definition commit (st : App) : App :=
  {| repos_dir := repos_dir st; cwd := cwd st; root := root st;
     table := table st; committed := table st; cursor := cursor st;
     stdout := stdout st |}.

(** *** Binding the parameters of a statement *)

(** A [str] is bound as UTF-8 text, which fails on lone surrogates; an [int]
    as a 64-bit integer. *)
Definition bind_text (s : string) : result string :=
  if Utf8.valid s then Return s else Raise UnicodeEncodeError.

Definition bind_int (n : Z) : result Z :=
  if (- 2 ^ 63 <=? n) && (n <? 2 ^ 63) then Return n else Raise OverflowError.

(** *** Paths below the repositories root *)

Definition components (p : string) : list string :=
  filter (fun c => negb (String.eqb c "") && negb (String.eqb c "."))
         (PosixPath.split p).

Fixpoint strip_prefix (pre l : list string) : option (list string) :=
  match pre, l with
  | [], _ => Some l
  | x :: pre', y :: l' => if String.eqb x y then strip_prefix pre' l' else None
  | _ :: _, [] => None
  end.

Inductive place : Type :=
  | Root
  | Parent
  | Child (name : string)
  | Elsewhere.

(** Where a path lies with respect to the directory [base]: that directory
    itself, its parent, one of its entries, or anything else (deeper, or not
    below it). *)
Definition place_of (base p : string) : place :=
  if Bool.eqb (PosixPath.isabs base) (PosixPath.isabs p) then
    match strip_prefix (components base) (components p) with
    | Some [] => Root
    | Some [c] => if String.eqb c ".." then Parent else Child c
    | _ => Elsewhere
    end
  else Elsewhere.

(** The last component of a path, trailing slashes dropped, is [.] or
    [..]. *)
Definition final_dot (p : string) : bool :=
  let c := last (filter PosixPath.nonempty (PosixPath.split p)) "" in
  String.eqb c "." || String.eqb c "..".

Definition is_some {A : Type} (o : option A) : bool :=
  match o with Some _ => true | None => false end.

(** [os.path.exists(p)]. *)
Definition os_path_exists (st : App) (p : string) : bool :=
  if String.eqb p "" then false
  else match place_of (repos_dir st) p with
       | Root | Parent => is_some (root st)
       | Child n =>
           match root st with
           | Some es => is_some (lookup_entry n es)
           | None => false
           end
       | Elsewhere => false
       end.

(** *** External programs *)

(** [rm -rf p], as its exit status and the state it leaves: [rm] refuses a
    path that ends in [.] or [..]; otherwise what the path names is removed
    with all below it, and a path that names nothing is no error. *)
Definition rm_rf (p : string) (st : App) : Z * App :=
  if final_dot p then (1, st)
  else match place_of (repos_dir st) p with
       | Root => (0, set_root None st)
       | Child n =>
           (0, set_root (option_map (remove_entry n) (root st)) st)
       | Parent | Elsewhere => (0, st)
       end.

(** What the fetches of one run give: for a location, the listing of the
    working copy that a successful clone leaves on disk, or [None] when the
    fetch fails (no such repository, network error, invalid location).
    The time stamps of the files are those that the checkout gives them,
    the time of the fetch and not that of a commit: a later fetch of the
    same location is another [Remote], which can hold the same bytes and
    never holds the same time stamps. *)
Definition Remote : Type := string -> option listing.

Definition is_empty_dir (n : node) : bool :=
  match n with
  | Dir [] => true
  | _ => false
  end.

(** [git clone url p], as its exit status and the state it leaves.  It
    fails when the fetch fails, when the destination exists and is not an
    empty directory, and when the destination cannot be made a fresh
    directory (it ends in [.] or [..], where the leading directories are
    still created, or lies outside the root); otherwise the working copy
    is checked out at the destination, missing leading directories
    created. *)
Definition git_clone (remote : Remote) (url p : string) (st : App) : Z * App :=
  match remote url with
  | None => (128, st)
  | Some tree =>
      if String.eqb p "" then (128, st)
      else if final_dot p then
        (128, match root st with
              | None => set_root (Some []) st
              | Some _ => st
              end)
      else match place_of (repos_dir st) p with
           | Root =>
               match root st with
               | None | Some [] => (0, set_root (Some tree) st)
               | Some (_ :: _) => (128, st)
               end
           | Child n =>
               let es := match root st with Some es => es | None => [] end in
               match lookup_entry n es with
               | None =>
                   (0, set_root (Some (es ++ [(n, Dir tree)])%list) st)
               | Some x =>
                   if is_empty_dir x then
                     (0, set_root
                           (Some (remove_entry n es ++ [(n, Dir tree)])%list) st)
                   else (128, st)
               end
           | Parent | Elsewhere => (128, st)
           end
  end.

(** [subprocess.run(..., check=True)] of a command that can be started: a
    non-zero exit status raises [CalledProcessError].  The commands of
    [clone_repo] can be started when [rm] and [git] are installed and the
    location and the path handed to them are arguments a process can take
    ([process_argument] below); a string with a NUL byte, for one, makes
    [subprocess.run] raise [ValueError] before any command runs, and that
    case is outside this model. *)
Definition subprocess_run_check (out : Z * App) : result unit * App :=
  let (returncode, st) := out in
  if returncode =? 0 then (Return tt, st)
  else (Raise (CalledProcessError returncode), st).

(** *** Statements on the cursor *)

(** [INSERT INTO file_contents (...) VALUES (?, ?, ?, ?, ?)]. *)
Definition execute_insert (params : string * string * string * string * string)
    (st : App) : result App :=
  let '(repo_name, relative_path, filename, content, last_modified) := params in
  let* repo_name := bind_text repo_name in
  let* relative_path := bind_text relative_path in
  let* filename := bind_text filename in
  let* content := bind_text content in
  let* last_modified := bind_text last_modified in
  Return
    (set_cursor []
       (set_table
          (table st
           ++ [{| repo_name := repo_name; filepath := relative_path;
                  filename := filename; content := content;
                  last_modified := last_modified |}])%list st)).

(** [DELETE FROM file_contents]. *)
Definition execute_delete (st : App) : App :=
  set_cursor [] (set_table [] st).

(** [LIMIT n]: a negative [n] is no bound. *)
Definition sql_limit {A : Type} (n : Z) (l : list A) : list A :=
  if n <? 0 then l else firstn (Z.to_nat n) l.

(** The [SELECT] of [search_files]:
    [SELECT repo_name, filepath, filename,
            snippet(file_contents, 0, '...', '...', '...', 50) as preview
     FROM file_contents WHERE file_contents MATCH ? LIMIT ?],
    rows in the order of their insertion. *)
Definition select_hit `{Engine} (q : fts5_query) (r : Row) : Hit :=
  (repo_name r, filepath r, filename r,
   fts5_snippet q (columns r) 0 "..." "..." "..." 50).

Definition execute_select `{Engine} (params : string * Z) (st : App)
  : result App :=
  let '(query, limit) := params in
  let* query := bind_text query in
  let* limit := bind_int limit in
  match fts5_parse query with
  | None => Raise OperationalError
  | Some q =>
      let matching := filter (fun r => fts5_match q (columns r)) (table st) in
      Return (set_cursor (map (select_hit q) (sql_limit limit matching)) st)
  end.

(** [self.cursor.fetchall()]. *)
Definition fetchall (st : App) : list Hit * App :=
  (cursor st, set_cursor [] st).

(** ** The methods of [RepoSearchApp] *)

(** [__init__]: [disk] is the listing of [repos_dir] found at start-up, if
    the directory exists, and [db] the rows found in the database file. *)
Definition __init__ (repos_dir cwd : string) (disk : option listing)
    (db : list Row) : result App :=
  (* os.makedirs(repos_dir, exist_ok=True) *)
  if String.eqb repos_dir "" then Raise FileNotFoundError
  else
    Return {| repos_dir := repos_dir; cwd := cwd;
              root := match disk with
                      | Some es => Some es
                      | None => Some []
                      end;
              table := db; committed := db; cursor := []; stdout := [] |}.

(** [clone_repo]: [Some name] for the returned name, [None] for the [None]
    returned after a [CalledProcessError]; any other exception leaves the
    method. *)
Definition clone_repo (remote : Remote) (repo_url : string) (st : App)
  : result (option string) * App :=
  (* Extract repo name from URL *)
  let repo_name := fst (PosixPath.splitext (PosixPath.basename repo_url)) in
  let repo_path := PosixPath.join (repos_dir st) repo_name in
  let attempt : result string * App :=
    (* Remove existing repo if it exists *)
    let (removed, st1) :=
      if os_path_exists st repo_path
      then subprocess_run_check (rm_rf repo_path st)
      else (Return tt, st) in
    match removed with
    | Raise e => (Raise e, st1)
    | Return _ =>
        (* Clone the repository *)
        let (cloned, st2) :=
          subprocess_run_check (git_clone remote repo_url repo_path st1) in
        match cloned with
        | Raise e => (Raise e, st2)
        | Return _ => (Return repo_name, st2)
        end
    end in
  match attempt with
  | (Return name, st') => (Return (Some name), st')
  | (Raise (CalledProcessError c), st') =>
      (Return None, print (ErrorCloning repo_url (CalledProcessError c)) st')
  | (Raise e, st') => (Raise e, st')
  end.

Definition os_path_getsize (f : file) : result Z :=
  Return (Z.of_nat (List.length (data f))).

(** [open(filepath, 'r', encoding='utf-8')] and [f.read()]. *)
Definition read_text (f : file) : result string :=
  if readable f then
    let* s := Utf8.decode (data f) in
    Return (Utf8.universal_newlines s)
  else Raise PermissionError.

(** The body of the inner loop of [index_repository], for the file
    [filename] of the directory [root]. *)
Definition index_file (repo_name repo_path root filename : string) (f : file)
    (st : App) : App :=
  let filepath := PosixPath.join root filename in
  (* Skip binary and very large files *)
  let attempt : result App :=
    let* size := os_path_getsize f in
    if 1000000 <? size then Return st
    else
      match read_text f with
      | Raise UnicodeDecodeError => Return st
      | Raise e => Raise e
      | Return content =>
          let last_modified := mtime_isoformat f in
          let* relative_path := PosixPath.relpath (cwd st) filepath repo_path in
          execute_insert
            (repo_name, relative_path, filename, content, last_modified) st
      end in
  match attempt with
  | Return st' => st'
  | Raise e => print (ErrorProcessing filepath e) st
  end.

(** [os.walk(top)] on the disk of the state. *)
Definition os_walk (st : App) (top : string)
  : list (string * list (string * file)) :=
  if String.eqb top "" then []
  else match place_of (repos_dir st) top, root st with
       | Root, Some es => walk top (Dir es)
       | Child n, Some es =>
           match lookup_entry n es with
           | Some x => walk top x
           | None => []
           end
       | _, _ => []
       end.

Definition index_directory (repo_name repo_path : string)
    (st : App) (entry : string * list (string * file)) : App :=
  let (root, files) := entry in
  fold_left
    (fun st (named : string * file) =>
       index_file repo_name repo_path root (fst named) (snd named) st)
    files st.

Definition index_repository (repo_name : string) (st : App) : App :=
  let repo_path := PosixPath.join (repos_dir st) repo_name in
  (* Walk through all files in the repository *)
  let st' :=
    fold_left (index_directory repo_name repo_path) (os_walk st repo_path) st in
  (* Commit changes *)
  commit st'.

(** [if repo_name:] on what [clone_repo] returned. *)
Definition truthy (repo_name : option string) : bool :=
  match repo_name with
  | Some s => negb (String.eqb s "")
  | None => false
  end.

Fixpoint index_each (remote : Remote) (repo_urls : list string) (st : App)
  : result unit * App :=
  match repo_urls with
  | [] => (Return tt, st)
  | repo_url :: rest =>
      match clone_repo remote repo_url st with
      | (Raise e, st1) => (Raise e, st1)
      | (Return repo_name, st1) =>
          let st2 :=
            match repo_name with
            | Some name =>
                if truthy repo_name then index_repository name st1 else st1
            | None => st1
            end in
          index_each remote rest st2
      end
  end.

Definition index_repositories (remote : Remote) (repo_urls : list string)
    (st : App) : result unit * App :=
  (* Clear existing index *)
  let st := commit (execute_delete st) in
  index_each remote repo_urls st.

(** [search_files(query, limit=50)]; [limit] is [None] when the caller
    leaves it out. *)
Definition or_default {A : Type} (given : option A) (default : A) : A :=
  match given with
  | Some a => a
  | None => default
  end.

Definition search_files `{Engine} (query : string) (limit : option Z)
    (st : App) : result (list Hit) * App :=
  let limit := or_default limit 50 in
  match execute_select (query, limit) st with
  | Raise e => (Raise e, st)
  | Return st1 =>
      let (rows, st2) := fetchall st1 in
      (Return rows, st2)
  end.

(** The handler of [POST /search], up to the rendering of the page: the
    form field [query], the empty string when it is missing, goes to
    [search_files] with no limit given. *)
Definition search `{Engine} (form_query : option string) (st : App)
  : result (list Hit) * App :=
  let query := match form_query with Some q => q | None => "" end in
  search_files query None st.

(** ** A fragment of the full-text engine

    An executable instance of [Engine], used to run the methods on concrete
    stores: the query language restricted to barewords, quoted strings, the
    prefix marker [*], the operators [AND], [OR], [NOT], parentheses and the
    implicit [AND] of adjacent phrases, over the default tokenizer on ASCII
    text.  Column filters, [NEAR] groups and the markers [^] and [+] are
    not in the fragment, which rejects them; bytes above 127 count as token
    characters and are not folded.  [snippet] is the engine's on a column of
    at most the number of tokens asked for, and on a column that holds no
    instance of a phrase; on a longer column with instances the fragment
    keeps the first tokens, where the engine picks the best-scoring
    window. *)

Module Fts5.

Definition is_digit (a : ascii) : bool := Utf8.in_range 48 57 a.
Definition is_upper (a : ascii) : bool := Utf8.in_range 65 90 a.
Definition is_lower (a : ascii) : bool := Utf8.in_range 97 122 a.
Definition is_high (a : ascii) : bool := (128 <=? Utf8.code a)%N.

(** ** The tokenizer *)

Definition is_token_char (a : ascii) : bool :=
  is_digit a || is_upper a || is_lower a || is_high a.

Definition fold_case (a : ascii) : ascii :=
  if is_upper a then ascii_of_N (Utf8.code a + 32) else a.

(** A token of a text: the offsets of its first byte and of the byte after
    its last, and its folded text. *)
Record tok : Type := { t_start : nat; t_end : nat; t_text : string }.

Definition flush (cur : option (nat * string)) (pos : nat) : list tok :=
  match cur with
  | Some (start, w) => [{| t_start := start; t_end := pos; t_text := w |}]
  | None => []
  end.

Fixpoint scan (s : string) (pos : nat) (cur : option (nat * string))
  : list tok :=
  match s with
  | EmptyString => flush cur pos
  | String a r =>
      if is_token_char a then
        scan r (S pos)
          (Some match cur with
                | Some (start, w) => (start, w ++ String (fold_case a) "")
                | None => (pos, String (fold_case a) "")
                end)
      else (flush cur pos ++ scan r (S pos) None)%list
  end.

Definition tokenize (s : string) : list tok := scan s 0%nat None.

Definition terms_of (s : string) : list string := map t_text (tokenize s).

(** ** The query language *)

Inductive token : Type :=
  | T_STRING (s : string)
  | T_AND
  | T_OR
  | T_NOT
  | T_LP
  | T_RP
  | T_STAR
  | T_OTHER (a : ascii).

Definition is_space (a : ascii) : bool :=
  let c := Utf8.code a in
  ((c =? 32) || (c =? 9) || (c =? 10) || (c =? 13))%N.

Definition is_bareword (a : ascii) : bool :=
  is_high a || is_digit a || is_upper a || is_lower a
  || (Utf8.code a =? 95)%N || (Utf8.code a =? 26)%N.

Definition is_special (a : ascii) : bool :=
  let c := Utf8.code a in
  ((c =? 123) || (c =? 125) || (c =? 58) || (c =? 44) || (c =? 43)
   || (c =? 45) || (c =? 94))%N.

Definition bareword (w : string) : token :=
  if String.eqb w "AND" then T_AND
  else if String.eqb w "OR" then T_OR
  else if String.eqb w "NOT" then T_NOT
  else T_STRING w.

Inductive mode : Type :=
  | Between
  | InBareword (w : string)
  | InString (w : string)
  | AfterQuote (w : string).

Definition DQUOTE : ascii := ascii_of_nat 34.
Definition NUL : ascii := ascii_of_nat 0.

(** The lexer, a character at a time; [None] is a lexical error
    (a character that starts no token, an unterminated string).  The text
    ends at its first NUL. *)
Fixpoint lex (m : mode) (z : string) : option (list token) :=
  let between (a : ascii) (r : string) : option (list token) :=
    if Ascii.eqb a NUL then Some []
    else if is_space a then lex Between r
    else if Ascii.eqb a "("%char then option_map (cons T_LP) (lex Between r)
    else if Ascii.eqb a ")"%char then option_map (cons T_RP) (lex Between r)
    else if Ascii.eqb a "*"%char then option_map (cons T_STAR) (lex Between r)
    else if is_special a then option_map (cons (T_OTHER a)) (lex Between r)
    else if Ascii.eqb a DQUOTE then lex (InString "") r
    else if is_bareword a then lex (InBareword (String a "")) r
    else None in
  match z with
  | EmptyString =>
      match m with
      | Between => Some []
      | InBareword w => Some [bareword w]
      | InString _ => None
      | AfterQuote w => Some [T_STRING w]
      end
  | String a r =>
      match m with
      | Between => between a r
      | InBareword w =>
          if is_bareword a then lex (InBareword (w ++ String a "")) r
          else option_map (cons (bareword w)) (between a r)
      | InString w =>
          if Ascii.eqb a DQUOTE then lex (AfterQuote w) r
          else if Ascii.eqb a NUL then None
          else lex (InString (w ++ String a "")) r
      | AfterQuote w =>
          if Ascii.eqb a DQUOTE then lex (InString (w ++ String a "")) r
          else option_map (cons (T_STRING w)) (between a r)
      end
  end.

(** A phrase is the terms of one string, the last one a prefix when the
    string is followed by [*]. *)
Inductive expr : Type :=
  | Phrase (terms : list string) (is_prefix : bool)
  | And (l r : expr)
  | Or (l r : expr)
  | Not (l r : expr).

Definition is_empty_phrase (e : expr) : bool :=
  match e with
  | Phrase [] _ => true
  | _ => false
  end.

(** Adjacent phrases: the implicit [AND], which leaves out the phrases
    without a term. *)
Definition implicit_and (l r : expr) : expr :=
  if is_empty_phrase r then l
  else if is_empty_phrase l then r
  else And l r.

(** [phrase phrase ...], as long as strings follow. *)
Fixpoint exprlist (acc : expr) (ts : list token) : expr * list token :=
  match ts with
  | T_STRING s :: T_STAR :: ts' =>
      exprlist (implicit_and acc (Phrase (terms_of s) true)) ts'
  | T_STRING s :: ts' =>
      exprlist (implicit_and acc (Phrase (terms_of s) false)) ts'
  | _ => (acc, ts)
  end.

(** The grammar by precedence: [OR] binds least, then [AND], then [NOT],
    all to the left; level 0 reads a parenthesised expression or a list of
    phrases.  [fuel] bounds the depth of the descent. *)
Fixpoint parse_level (fuel : nat) (level : nat) (ts : list token)
  : option (expr * list token) :=
  match fuel with
  | O => None
  | S fuel' =>
      match level with
      | O =>
          match ts with
          | T_LP :: ts' =>
              match parse_level fuel' 3 ts' with
              | Some (e, T_RP :: ts'') => Some (e, ts'')
              | _ => None
              end
          | T_STRING s :: T_STAR :: ts' =>
              Some (exprlist (Phrase (terms_of s) true) ts')
          | T_STRING s :: ts' =>
              Some (exprlist (Phrase (terms_of s) false) ts')
          | _ => None
          end
      | S level' =>
          match parse_level fuel' level' ts with
          | Some (e, ts') => parse_rest fuel' level e ts'
          | None => None
          end
      end
  end

with parse_rest (fuel : nat) (level : nat) (l : expr) (ts : list token)
  : option (expr * list token) :=
  match fuel with
  | O => None
  | S fuel' =>
      let operand (mk : expr -> expr -> expr) (ts' : list token) :=
        match parse_level fuel' (Nat.pred level) ts' with
        | Some (r, ts'') => parse_rest fuel' level (mk l r) ts''
        | None => None
        end in
      match level, ts with
      | 1%nat, T_NOT :: ts' => operand Not ts'
      | 2%nat, T_AND :: ts' => operand And ts'
      | 3%nat, T_OR :: ts' => operand Or ts'
      | _, _ => Some (l, ts)
      end
  end.

Definition parse (query : string) : option expr :=
  match lex Between query with
  | None => None
  | Some ts =>
      match parse_level (4 * S (List.length ts)) 3 ts with
      | Some (e, []) => Some e
      | _ => None
      end
  end.

(** ** Matching *)

Definition term_matches (is_prefix : bool) (term text : string) : bool :=
  if is_prefix then String.prefix term text else String.eqb term text.

(** The phrase starts at the head of the token list. *)
Fixpoint phrase_here (terms : list string) (is_prefix : bool)
    (ts : list tok) : option nat :=
  match terms, ts with
  | [], _ => None
  | [term], t :: _ =>
      if term_matches is_prefix term (t_text t) then Some 1%nat else None
  | term :: terms', t :: ts' =>
      if String.eqb term (t_text t) then
        option_map S (phrase_here terms' is_prefix ts')
      else None
  | _ :: _, [] => None
  end.

(** The instances of a phrase among the tokens of one column, each by the
    indexes of its first and of its last token. *)
Fixpoint phrase_instances (terms : list string) (is_prefix : bool)
    (i : nat) (ts : list tok) : list (nat * nat) :=
  match ts with
  | [] => []
  | _ :: ts' =>
      match phrase_here terms is_prefix ts with
      | Some n => [(i, (i + n - 1)%nat)]
      | None => []
      end ++ phrase_instances terms is_prefix (S i) ts'
  end%list.

Definition phrase_in (terms : list string) (is_prefix : bool)
    (col : string) : bool :=
  negb (Nat.eqb
          (List.length (phrase_instances terms is_prefix 0 (tokenize col))) 0).

Fixpoint matches (e : expr) (cols : list string) : bool :=
  match e with
  | Phrase terms is_prefix => existsb (phrase_in terms is_prefix) cols
  | And l r => matches l cols && matches r cols
  | Or l r => matches l cols || matches r cols
  | Not l r => matches l cols && negb (matches r cols)
  end.

(** ** Snippets *)

(** The phrase instances the engine reports for a matching row, in the
    column [col]: those of the phrases under sub-expressions that match the
    row [cols]. *)
Fixpoint instances (e : expr) (cols : list string) (col : string)
  : list (nat * nat) :=
  if matches e cols then
    match e with
    | Phrase terms is_prefix =>
        phrase_instances terms is_prefix 0 (tokenize col)
    | And l r | Or l r => (instances l cols col ++ instances r cols col)%list
    | Not l _ => instances l cols col
    end
  else [].

Definition starts_at (i : nat) (inst : list (nat * nat)) : bool :=
  existsb (fun p => Nat.eqb (fst p) i) inst.

(** The index of the last token of the instances that begin at a token
    from [i] to [j] and overlap, taken together. *)
Fixpoint extent (fuel : nat) (inst : list (nat * nat)) (i j : nat) : nat :=
  match fuel with
  | O => j
  | S fuel' =>
      let j' :=
        fold_left
          (fun m p => if Nat.leb i (fst p) && Nat.leb (fst p) j
                      then Nat.max m (snd p) else m)
          inst j in
      if Nat.eqb j' j then j else extent fuel' inst i j'
  end.

(** The text from offset [pos], the tokens [ts] (numbered from [i]) still
    to come, with [open] before the first token of each group of instances
    and [close] after the last; [until] is the last token of the group being
    written, if one is. *)
Fixpoint mark (text : string) (pos : nat) (ts : list tok) (i : nat)
    (inst : list (nat * nat)) (until : option nat) (open close : string)
  : string :=
  match ts with
  | [] => PosixPath.slice_from pos text
  | t :: ts' =>
      let gap := PosixPath.slice pos (t_start t) text in
      let word := PosixPath.slice (t_start t) (t_end t) text in
      match until with
      | Some j =>
          if Nat.eqb i j then
            gap ++ word ++ close
            ++ mark text (t_end t) ts' (S i) inst None open close
          else
            gap ++ word ++ mark text (t_end t) ts' (S i) inst until open close
      | None =>
          if starts_at i inst then
            let j := extent (List.length ts) inst i i in
            if Nat.eqb i j then
              gap ++ open ++ word ++ close
              ++ mark text (t_end t) ts' (S i) inst None open close
            else
              gap ++ open ++ word
              ++ mark text (t_end t) ts' (S i) inst (Some j) open close
          else gap ++ word ++ mark text (t_end t) ts' (S i) inst None open close
      end
  end.

Definition snippet_text (inst : list (nat * nat)) (col open close
    ellipsis : string) (ntoken : Z) : string :=
  let ts := tokenize col in
  let n := Z.to_nat ntoken in
  if Nat.leb (List.length ts) n then mark col 0 ts 0 inst None open close
  else
    let kept := firstn n ts in
    let cut := match rev kept with t :: _ => t_end t | [] => O end in
    let inst := filter (fun p => Nat.ltb (snd p) n) inst in
    mark (PosixPath.slice_to cut col) 0 kept 0 inst None open close ++ ellipsis.

End Fts5.

(** The fragment as an engine. *)
Definition fts5_fragment : Engine :=
  {| fts5_query := Fts5.expr;
     fts5_parse := Fts5.parse;
     fts5_match := Fts5.matches;
     fts5_snippet := fun q cols i open close ellipsis ntoken =>
       let col := nth i cols "" in
       Fts5.snippet_text (Fts5.instances q cols col) col open close ellipsis
         ntoken |}.

(** ** What a run is expected to store *)

Definition option_list {A : Type} (o : option A) : list A :=
  match o with
  | Some a => [a]
  | None => []
  end.

(** The row of the file [filename] of the directory [root] of a working
    copy, when the file passes the filters of the walker: at most 1,000,000
    bytes, readable, valid UTF-8, and with a name that is text. *)
Definition file_row (cwd repo_name repo_path root filename : string)
    (f : file) : option Row :=
  if 1000000 <? Z.of_nat (List.length (data f)) then None
  else if negb (readable f) then None
  else
    let s := string_of_list_byte (data f) in
    if negb (Utf8.valid s) then None
    else
      match PosixPath.relpath cwd (PosixPath.join root filename) repo_path with
      | Raise _ => None
      | Return relative_path =>
          let r := {| repo_name := repo_name; filepath := relative_path;
                      filename := filename;
                      content := Utf8.universal_newlines s;
                      last_modified := mtime_isoformat f |} in
          if forallb Utf8.valid (columns r) then Some r else None
      end.

Definition directory_rows (cwd repo_name repo_path : string)
    (entry : string * list (string * file)) : list Row :=
  flat_map
    (fun named : string * file =>
       option_list
         (file_row cwd repo_name repo_path (fst entry) (fst named) (snd named)))
    (snd entry).

(** The rows of a working copy whose listing is [tree], checked out at
    [repo_path]. *)
Definition tree_rows (cwd repo_name repo_path : string) (tree : listing)
  : list Row :=
  flat_map (directory_rows cwd repo_name repo_path)
           (walk repo_path (Dir tree)).

Definition url_repo_name (repo_url : string) : string :=
  fst (PosixPath.splitext (PosixPath.basename repo_url)).

Definition is_dot (name : string) : bool :=
  String.eqb name "." || String.eqb name "..".

(** The rows a run stores for one location: those of its working copy,
    when the fetch succeeds and the orchestrator goes on to index it. *)
Definition location_rows (remote : Remote) (cwd repos_dir repo_url : string)
  : list Row :=
  let name := url_repo_name repo_url in
  if String.eqb name "" || is_dot name then []
  else match remote repo_url with
       | None => []
       | Some tree => tree_rows cwd name (PosixPath.join repos_dir name) tree
       end.

(** ** Sample data *)

Definition text_file (s : string) : node :=
  File {| readable := true; data := list_byte_of_string s;
          mtime_isoformat := "2024-05-01T12:00:00" |}.

(** A freshly constructed application with nothing on disk and an empty
    database. *)
Definition fresh : App :=
  {| repos_dir := "repos"; cwd := "/srv/app"; root := Some [];
     table := []; committed := []; cursor := []; stdout := [] |}.

Definition readme_row : Row :=
  {| repo_name := "proj"; filepath := "README.md"; filename := "README.md";
     content := "hello world"; last_modified := "2024-05-01T12:00:00" |}.

Definition hello_row (name : string) : Row :=
  {| repo_name := "proj"; filepath := name; filename := name;
     content := "say hello"; last_modified := "2024-05-01T12:00:00" |}.

Definition with_rows (rows : list Row) : App :=
  commit (set_table rows fresh).

Definition five_hello : list Row :=
  map hello_row ["a.txt"; "b.txt"; "c.txt"; "d.txt"; "e.txt"].

(** A file of 1,000,001 zero bytes, and a Latin-1 file, whose byte E9 is
    not followed by the continuation bytes UTF-8 asks for. *)
Definition big_file : file :=
  {| readable := true; data := repeat "000"%byte (Z.to_nat 1000001);
     mtime_isoformat := "2024-05-01T12:00:00" |}.

Definition latin1_file : file :=
  {| readable := true; data := ["c"%byte; "a"%byte; "f"%byte; Byte.xe9];
     mtime_isoformat := "2024-05-01T12:00:00" |}.

(** A remote end with one repository, reachable with and without a
    trailing slash; every other location fails. *)
Definition demo_tree : listing :=
  [("README.md", text_file "hello world");
   ("src", Dir [("main.py", text_file "print('hello')")])].

Definition demo_remote : Remote :=
  fun url =>
    if String.eqb url "https://github.com/team/proj.git"
       || String.eqb url "https://github.com/team/proj/"
    then Some demo_tree else None.

(** ** Predicates of the statements below *)

(** The character [c] occurs in [s]. *)
Fixpoint has_char (c : ascii) (s : string) : bool :=
  match s with
  | EmptyString => false
  | String a r => Ascii.eqb a c || has_char c r
  end.

(** Two states with the same repositories root, working directory and
    working copies. *)
Definition same_disk (st' st : App) : Prop :=
  repos_dir st' = repos_dir st /\ cwd st' = cwd st /\ root st' = root st.

(** Two states that differ at most in the working copies and in what was
    printed. *)
Definition same_index (st' st : App) : Prop :=
  repos_dir st' = repos_dir st /\ cwd st' = cwd st
  /\ table st' = table st /\ committed st' = committed st.

(** ** The caller at start-up, and further sample data *)

(** [setup_initial_repos]: the two configured repositories are cloned and
    indexed. *)
Definition repos_to_index : list string :=
  ["https://github.com/runarhageland/strompris.git";
   "https://github.com/runarhageland/k8slab.git"].

Definition setup_initial_repos (remote : Remote) (st : App)
  : result unit * App :=
  (* Clone and index repositories *)
  index_repositories remote repos_to_index st.

(** The regular files of a directory, at any depth. *)
Fixpoint files_below (n : node) : nat :=
  match n with
  | File _ => 0%nat
  | Dir es =>
      (fix count (l : listing) : nat :=
         match l with
         | [] => 0%nat
         | (_, File _) :: l' => S (count l')
         | (_, (Dir _) as d) :: l' => (files_below d + count l')%nat
         end) es
  end.

(** A segment of a path: no slash in it, and not empty. *)
Definition clean (c : string) : Prop :=
  has_char PosixPath.sep c = false /\ c <> "".

(** A name a directory entry can bear: not empty, without a slash, and
    neither [.] nor [..]. *)
Definition entry_name (s : string) : bool :=
  negb (has_char PosixPath.sep s) && negb (String.eqb s "")
  && negb (is_dot s).

(** The regular files of a directory, each with the names of the
    directories that lead to it and its own name, in the order of the
    walk. *)
Fixpoint tree_files (n : node) : list (list string * string * file) :=
  match n with
  | File _ => []
  | Dir es =>
      (map (fun named : string * file => ([], fst named, snd named))
           (nondirs es)
       ++ (fix subdirs (l : listing) : list (list string * string * file) :=
             match l with
             | [] => []
             | (_, File _) :: l' => subdirs l'
             | (name, (Dir _) as d) :: l' =>
                 map (fun t : list string * string * file =>
                        (name :: fst (fst t), snd (fst t), snd t))
                     (tree_files d)
                 ++ subdirs l'
             end) es)%list
  end.

(** Every entry of the tree bears a name that an entry of a directory can
    bear. *)
Fixpoint well_named (n : node) : bool :=
  match n with
  | File _ => true
  | Dir es =>
      (fix all (l : listing) : bool :=
         match l with
         | [] => true
         | (name, x) :: l' => entry_name name && well_named x && all l'
         end) es
  end.

(** Sixty rows that hold the word "hello". *)
Definition sixty_hello : list Row := repeat (hello_row "a.txt") 60.

(** A disk with a stale working copy of "proj" beside the working copy of
    another repository. *)
Definition stale_disk : App :=
  set_root
    (Some [("proj", Dir [("OLD.txt", text_file "stale")]);
           ("other", Dir [("notes.txt", text_file "kept")])])
    fresh.

(** A disk with the working copy of "proj" checked out. *)
Definition demo_disk : App :=
  set_root (Some [("proj", Dir demo_tree)]) fresh.

Definition main_py : file :=
  {| readable := true; data := list_byte_of_string "print('hello')";
     mtime_isoformat := "2024-05-01T12:00:00" |}.

(** A remote end with two repositories whose locations end in the same
    segment. *)
Definition fork_tree : listing := [("FORK.md", text_file "hello fork")].

Definition fork_remote : Remote :=
  fun url =>
    if String.eqb url "https://github.com/team/proj.git" then Some demo_tree
    else if String.eqb url "https://github.com/fork/proj.git"
         then Some fork_tree
         else None.

(** ** Arguments of the commands, and the time stamps of a checkout *)

Definition NUL : ascii := ascii_of_nat 0.

(** A string that [subprocess.run] takes as an argument of a command: text
    that [os.fsencode] can encode (no lone surrogate), without a NUL byte
    (refused with [ValueError]) and of fewer than 131072 bytes (the most
    the kernel takes for one argument). *)
Definition process_argument (s : string) : bool :=
  Utf8.valid s && negb (has_char NUL s)
  && (Z.of_nat (String.length s) <? 131072).

(** The location and the working-copy path that [clone_repo] hands to [rm]
    and to [git] can be arguments of a process. *)
Definition clone_arguments (repos_dir repo_url : string) : bool :=
  process_argument repo_url
  && process_argument (PosixPath.join repos_dir (url_repo_name repo_url)).

Definition set_mtime (t : string) (f : file) : file :=
  {| readable := readable f; data := data f; mtime_isoformat := t |}.

(** The node with the time stamp of every file set to [t]. *)
Fixpoint restamp (t : string) (n : node) : node :=
  match n with
  | File f => File (set_mtime t f)
  | Dir es =>
      Dir ((fix each (l : listing) : listing :=
              match l with
              | [] => []
              | (name, x) :: l' => (name, restamp t x) :: each l'
              end) es)
  end.

(** Two working copies with identical content: the same entries under the
    same names in the same order, the regular files with the same bytes and
    the same permission to read them.  The time stamps are left out of the
    comparison. *)
Definition same_content (tree1 tree2 : listing) : Prop :=
  restamp "" (Dir tree1) = restamp "" (Dir tree2).

(** The time stamps of the files are text, as [isoformat] writes them. *)
Fixpoint text_stamps (n : node) : bool :=
  match n with
  | File f => Utf8.valid (mtime_isoformat f)
  | Dir es =>
      (fix all (l : listing) : bool :=
         match l with
         | [] => true
         | (_, x) :: l' => text_stamps x && all l'
         end) es
  end.

(** Two fetches materialize identical content for a location: both fail,
    or both check out working copies with identical content. *)
Definition same_checkouts (remote1 remote2 : Remote) (repo_url : string)
  : Prop :=
  match remote1 repo_url, remote2 repo_url with
  | Some tree1, Some tree2 =>
      same_content tree1 tree2
      /\ text_stamps (Dir tree1) = true /\ text_stamps (Dir tree2) = true
  | None, None => True
  | _, _ => False
  end.

(** A row without its column [last_modified]. *)
Definition unstamped (r : Row) : string * string * string * string :=
  (repo_name r, filepath r, filename r, content r).

(** The remote end of [demo_remote] at a later fetch: the same bytes,
    checked out a day later. *)
Definition later_file (s : string) : node :=
  File {| readable := true; data := list_byte_of_string s;
          mtime_isoformat := "2024-05-02T09:30:00" |}.

Definition later_tree : listing :=
  [("README.md", later_file "hello world");
   ("src", Dir [("main.py", later_file "print('hello')")])].

Definition later_remote : Remote :=
  fun url =>
    if String.eqb url "https://github.com/team/proj.git" then Some later_tree
    else None.

(** * The sample data *)

(** The sample application is the one [__init__] builds with the default
    [repos_dir], when the directory and the database are new. *)
Lemma fresh_is_initial : __init__ "repos" "/srv/app" None [] = Return fresh.
Proof. reflexivity. Qed.

(** * Properties of the search facade *)

Section Search.

Context {E : Engine}.

Lemma bind_text_valid (s : string) :
  Utf8.valid s = true -> bind_text s = Return s.
Proof. unfold bind_text; intros ->; reflexivity. Qed.

Lemma bind_int_in_range (n : Z) :
  - 2 ^ 63 <= n < 2 ^ 63 -> bind_int n = Return n.
Proof.
  unfold bind_int; intros [Hlo Hhi].
  apply Z.leb_le in Hlo; apply Z.ltb_lt in Hhi.
  rewrite Hlo, Hhi; reflexivity.
Qed.

Lemma bind_text_inv (s s' : string) : bind_text s = Return s' -> s' = s.
Proof.
  unfold bind_text; destruct (Utf8.valid s); intros H;
    [ injection H as <-; reflexivity | discriminate ].
Qed.

Lemma bind_int_inv (n n' : Z) : bind_int n = Return n' -> n' = n.
Proof.
  unfold bind_int; destruct ((- 2 ^ 63 <=? n) && (n <? 2 ^ 63)); intros H;
    [ injection H as <-; reflexivity | discriminate ].
Qed.

(** What [search_files] returns, when the parameters bind and the engine
    accepts the query. *)
Lemma search_files_accepted (query : string) (limit : option Z) (st : App)
    (q : fts5_query) :
  Utf8.valid query = true ->
  - 2 ^ 63 <= or_default limit 50 < 2 ^ 63 ->
  fts5_parse query = Some q ->
  search_files query limit st
  = (Return (map (select_hit q)
               (sql_limit (or_default limit 50)
                  (filter (fun r => fts5_match q (columns r)) (table st)))),
     set_cursor [] st).
Proof.
  intros Hq Hn Hp.
  unfold search_files, execute_select.
  rewrite (bind_text_valid _ Hq), (bind_int_in_range _ Hn); cbn [bind].
  rewrite Hp; reflexivity.
Qed.

Lemma search_files_rejected (query : string) (limit : option Z) (st : App) :
  Utf8.valid query = true ->
  - 2 ^ 63 <= or_default limit 50 < 2 ^ 63 ->
  fts5_parse query = None ->
  search_files query limit st = (Raise OperationalError, st).
Proof.
  intros Hq Hn Hp.
  unfold search_files, execute_select.
  rewrite (bind_text_valid _ Hq), (bind_int_in_range _ Hn); cbn [bind].
  rewrite Hp; reflexivity.
Qed.

(** A returned list of hits is the projection of the matching rows, cut by
    the limit. *)
Lemma search_files_returns (query : string) (limit : option Z) (st : App)
    (hits : list Hit) :
  fst (search_files query limit st) = Return hits ->
  exists q,
    fts5_parse query = Some q
    /\ hits = map (select_hit q)
                (sql_limit (or_default limit 50)
                   (filter (fun r => fts5_match q (columns r)) (table st))).
Proof.
  unfold search_files, execute_select.
  destruct (bind_text query) as [query' | e] eqn:Hq; cbn [bind fst];
    [ | discriminate ].
  destruct (bind_int (or_default limit 50)) as [n | e] eqn:Hn; cbn [bind fst];
    [ | discriminate ].
  apply bind_text_inv in Hq; apply bind_int_inv in Hn; subst query' n.
  destruct (fts5_parse query) as [q | ]; cbn [fetchall fst cursor set_cursor];
    [ | discriminate ].
  intros H; injection H as <-.
  exists q; split; reflexivity.
Qed.

Lemma filter_none {A : Type} (f : A -> bool) (l : list A) :
  (forall x, In x l -> f x = false) -> filter f l = [].
Proof.
  induction l as [ | x l IH]; simpl; intros H; [ reflexivity | ].
  rewrite (H x (or_introl eq_refl)).
  apply IH; intros y Hy; apply H; right; exact Hy.
Qed.

Lemma sql_limit_nil {A : Type} (n : Z) : sql_limit n (@nil A) = [].
Proof. unfold sql_limit; destruct (n <? 0); [ | rewrite firstn_nil ]; reflexivity. Qed.

Lemma sql_limit_length {A : Type} (n : Z) (l : list A) :
  0 <= n ->
  Z.of_nat (List.length (sql_limit n l)) = Z.min n (Z.of_nat (List.length l)).
Proof.
  intros Hn; unfold sql_limit.
  destruct (Z.ltb_spec n 0) as [Hneg | _]; [ lia | ].
  rewrite length_firstn; lia.
Qed.

Lemma in_sql_limit {A : Type} (n : Z) (l : list A) (x : A) :
  In x (sql_limit n l) -> In x l.
Proof.
  unfold sql_limit; destruct (n <? 0); [ trivial | ].
  intros Hx; rewrite <- (firstn_skipn (Z.to_nat n) l).
  apply in_or_app; left; exact Hx.
Qed.

(** Every hit is a matching row of the table, and its preview is the
    snippet the engine makes of that row for the column of index 0, the
    column [repo_name]. *)
Lemma search_files_hit (query : string) (limit : option Z) (st : App)
    (hits : list Hit) (h : Hit) :
  fst (search_files query limit st) = Return hits ->
  In h hits ->
  exists q r,
    fts5_parse query = Some q
    /\ In r (table st)
    /\ fts5_match q (columns r) = true
    /\ h = (repo_name r, filepath r, filename r,
            fts5_snippet q (columns r) 0 "..." "..." "..." 50)
    /\ nth 0 (columns r) "" = repo_name r.
Proof.
  intros Hret Hin.
  destruct (search_files_returns query limit st hits Hret) as (q & Hp & ->).
  apply in_map_iff in Hin; destruct Hin as (r & <- & Hr).
  apply in_sql_limit, filter_In in Hr; destruct Hr as [Hr Hm].
  exists q, r; repeat split; assumption.
Qed.

(** C1, as amended.  For every limit in the range of a 64-bit integer and
    every query that is text: when the engine accepts the query and no row
    of the table matches it, [search_files] returns the empty sequence and
    raises nothing; when the engine rejects the query as malformed, the
    engine's error is raised to the caller, there being no handler in
    [search_files]. *)
Theorem search_files_no_match_or_rejected (query : string)
    (limit : option Z) (st : App) :
  Utf8.valid query = true ->
  - 2 ^ 63 <= or_default limit 50 < 2 ^ 63 ->
  match fts5_parse query with
  | Some q =>
      (forall r, In r (table st) -> fts5_match q (columns r) = false) ->
      fst (search_files query limit st) = Return []
  | None => fst (search_files query limit st) = Raise OperationalError
  end.
Proof.
  intros Hq Hn.
  destruct (fts5_parse query) as [q | ] eqn:Hp.
  - intros Hnone.
    rewrite (search_files_accepted query limit st q Hq Hn Hp); simpl.
    rewrite (filter_none _ _ Hnone), sql_limit_nil; reflexivity.
  - rewrite (search_files_rejected query limit st Hq Hn Hp); reflexivity.
Qed.

(** C7, as amended.  For every query and every limit that is not negative,
    a call that returns gives at most [limit] hits; when the parameters
    bind and the engine accepts the query it does return, with as many hits
    as the smaller of [limit] and the number of matching rows (two hits for
    five matching rows and a limit of two); and a call without a limit is
    the call with the limit 50. *)
Theorem search_files_at_most_limit (query : string) (limit : option Z)
    (st : App) :
  0 <= or_default limit 50 ->
  (forall hits,
     fst (search_files query limit st) = Return hits ->
     Z.of_nat (List.length hits) <= or_default limit 50)
  /\ (forall q,
        Utf8.valid query = true ->
        fts5_parse query = Some q ->
        or_default limit 50 < 2 ^ 63 ->
        exists hits,
          fst (search_files query limit st) = Return hits
          /\ Z.of_nat (List.length hits)
             = Z.min (or_default limit 50)
                 (Z.of_nat
                    (List.length
                       (filter (fun r => fts5_match q (columns r))
                          (table st)))))
  /\ search_files query None st = search_files query (Some 50) st.
Proof.
  intros Hn; split; [ | split ].
  - intros hits Hret.
    destruct (search_files_returns query limit st hits Hret) as (q & _ & ->).
    rewrite length_map, sql_limit_length by exact Hn; lia.
  - intros q Hq Hp Hhi.
    assert (Hrange : - 2 ^ 63 <= or_default limit 50 < 2 ^ 63) by lia.
    rewrite (search_files_accepted query limit st q Hq Hrange Hp); simpl.
    eexists; split; [ reflexivity | ].
    rewrite length_map; apply sql_limit_length; exact Hn.
  - reflexivity.
Qed.

(** C10.  For every query and every limit, whether the call returns hits or
    raises, [search_files] leaves the table [file_contents] as it was, both
    as the connection sees it and as committed; the working copies on disk
    and what was printed are untouched as well. *)
Theorem search_files_leaves_index_unchanged (query : string)
    (limit : option Z) (st : App) :
  let st' := snd (search_files query limit st) in
  table st' = table st
  /\ committed st' = committed st
  /\ root st' = root st
  /\ stdout st' = stdout st.
Proof.
  unfold search_files, execute_select.
  destruct (bind_text query) as [query' | e]; cbn [bind snd];
    [ | repeat split ].
  destruct (bind_int (or_default limit 50)) as [n | e]; cbn [bind snd];
    [ | repeat split ].
  destruct (fts5_parse query') as [q | ]; cbn [fetchall snd]; repeat split.
Qed.

End Search.

(** ** Runs of the search facade on the fragment *)

(** C1, the claim as stated fails: on the empty query the engine reports a
    syntax error and [search_files], which has no handler, raises it to the
    caller instead of returning the empty sequence. *)
Lemma search_files_empty_query_raises :
  fst (@search_files fts5_fragment "" (Some 50) (with_rows [readme_row]))
  = Raise OperationalError.
Proof. vm_compute; reflexivity. Qed.

Lemma search_files_no_match_or_rejected_witness :
  fst (@search_files fts5_fragment "zzz" None (with_rows [readme_row]))
  = Return [].
Proof.
  pose proof (@search_files_no_match_or_rejected fts5_fragment "zzz" None
                (with_rows [readme_row]) eq_refl) as H.
  assert (Hrange : - 2 ^ 63 <= or_default None 50 < 2 ^ 63)
    by (cbn [or_default]; lia).
  specialize (H Hrange).
  change (@fts5_parse fts5_fragment "zzz") with (Fts5.parse "zzz") in H.
  assert (Hparse : Fts5.parse "zzz" = Some (Fts5.Phrase ["zzz"] false))
    by (vm_compute; reflexivity).
  rewrite Hparse in H.
  apply H.
  intros r [<- | []]; vm_compute; reflexivity.
Defined.

(** C7, the claim as stated fails: a negative limit is no bound on the
    number of rows, so with five matching rows and the limit -1 the call
    returns five hits, which is not at most -1. *)
Lemma search_files_negative_limit_unbounded :
  ~ (forall hits,
       fst (@search_files fts5_fragment "hello" (Some (-1))
              (with_rows five_hello)) = Return hits ->
       Z.of_nat (List.length hits) <= -1).
Proof.
  intros H.
  assert (Hrun :
    fst (@search_files fts5_fragment "hello" (Some (-1)) (with_rows five_hello))
    = Return (map (fun n => ("proj", n, n, "proj"))
                ["a.txt"; "b.txt"; "c.txt"; "d.txt"; "e.txt"]))
    by (vm_compute; reflexivity).
  specialize (H _ Hrun); simpl in H; lia.
Qed.

Lemma search_files_at_most_limit_witness :
  exists hits,
    fst (@search_files fts5_fragment "hello" (Some 2) (with_rows five_hello))
    = Return hits
    /\ Z.of_nat (List.length hits) = 2.
Proof.
  assert (Hlimit : 0 <= or_default (Some 2) 50) by (cbn [or_default]; lia).
  destruct (@search_files_at_most_limit fts5_fragment "hello" (Some 2)
              (with_rows five_hello) Hlimit) as (_ & Hexact & _).
  assert (Hparse :
    @fts5_parse fts5_fragment "hello" = Some (Fts5.Phrase ["hello"] false))
    by (vm_compute; reflexivity).
  assert (Hhigh : or_default (Some 2) 50 < 2 ^ 63) by (cbn [or_default]; lia).
  destruct (Hexact _ eq_refl Hparse Hhigh) as (hits & Hrun & Hlen).
  exists hits; split; [ exact Hrun | ].
  rewrite Hlen; vm_compute; reflexivity.
Defined.

(** C2, at the failing input: the only row holds "hello world" in its
    column [content] and "proj" in its column [repo_name]; the query
    "hello" matches it through the content, and the preview of the hit is
    the text of [repo_name], the column of index 0 that the statement
    passes to [snippet], not a snippet of the content around the match. *)
Theorem search_files_preview_from_repo_name :
  content readme_row = "hello world"
  /\ fst (@search_files fts5_fragment "hello" None (with_rows [readme_row]))
     = Return [("proj", "README.md", "README.md", "proj")].
Proof. split; vm_compute; reflexivity. Qed.

(** * Properties of the path helpers *)

Section Paths.

Import PosixPath.

Lemma rfind_lower (c : ascii) (p : string) : -1 <= rfind c p.
Proof.
  induction p as [ | a r IH]; simpl; [ lia | ].
  destruct (Z.leb_spec 0 (rfind c r)); [ lia | ].
  destruct (Ascii.eqb a c); lia.
Qed.

(** Nothing after the last occurrence of [c] holds [c]. *)
Lemma after_rfind (c : ascii) (p : string) :
  has_char c (slice_from (Z.to_nat (rfind c p + 1)) p) = false.
Proof.
  induction p as [ | a r IH]; [ reflexivity | ].
  pose proof (rfind_lower c r) as Hlow.
  cbn [rfind].
  destruct (Z.leb_spec 0 (rfind c r)) as [Hpos | Hneg].
  - replace (Z.to_nat (rfind c r + 1 + 1)) with (S (Z.to_nat (rfind c r + 1)))
      by lia.
    exact IH.
  - assert (Hnone : rfind c r = -1) by lia.
    rewrite Hnone in IH; cbn in IH.
    destruct (Ascii.eqb a c) eqn:Hac; cbn.
    + exact IH.
    + rewrite Hac, IH; reflexivity.
Qed.

Lemma basename_no_sep (p : string) : has_char sep (basename p) = false.
Proof. unfold basename; apply after_rfind. Qed.

Lemma slice_to_no_char (c : ascii) (n : nat) (p : string) :
  has_char c p = false -> has_char c (slice_to n p) = false.
Proof.
  revert p; induction n as [ | n IH]; intros [ | a r]; simpl; try reflexivity.
  intros H; apply orb_false_iff in H; destruct H as [Ha Hr].
  rewrite Ha, (IH r Hr); reflexivity.
Qed.

Lemma splitext_no_sep (p : string) :
  has_char sep p = false -> has_char sep (fst (splitext p)) = false.
Proof.
  intros H; unfold splitext.
  destruct (rfind sep p <? rfind extsep p); [ | exact H ].
  destruct (all_char extsep _); [ exact H | ].
  apply slice_to_no_char; exact H.
Qed.

(** The name derived from a location holds no slash. *)
Lemma url_repo_name_no_sep (repo_url : string) :
  has_char sep (url_repo_name repo_url) = false.
Proof. apply splitext_no_sep, basename_no_sep. Qed.

Lemma split_no_sep (n : string) : has_char sep n = false -> split n = [n].
Proof.
  induction n as [ | a r IH]; simpl; [ reflexivity | ].
  intros H; apply orb_false_iff in H; destruct H as [Ha Hr].
  rewrite Ha, (IH Hr); reflexivity.
Qed.

Lemma split_not_nil (p : string) : split p <> [].
Proof.
  induction p as [ | a r IH]; simpl; [ discriminate | ].
  destruct (Ascii.eqb a sep); [ discriminate | ].
  destruct (split r); [ contradiction | discriminate ].
Qed.

Lemma split_app_sep (a b : string) :
  split (a ++ String sep b) = (split a ++ split b)%list.
Proof.
  induction a as [ | c a IH]; simpl.
  - reflexivity.
  - rewrite IH.
    destruct (Ascii.eqb c sep); [ reflexivity | ].
    pose proof (split_not_nil a) as Hne.
    destruct (split a) as [ | s ss]; [ contradiction | reflexivity ].
Qed.

Lemma endswith_char_inv (c : ascii) (a : string) :
  endswith_char c a = true -> exists a', a = a' ++ String c "".
Proof.
  induction a as [ | x r IH]; simpl; [ discriminate | ].
  destruct r as [ | y r'].
  - intros H; apply Ascii.eqb_eq in H; subst x; exists ""; reflexivity.
  - intros H; destruct (IH H) as [a' Ha']; exists (String x a').
    simpl; rewrite <- Ha'; reflexivity.
Qed.

Lemma startswith_sep_no_sep (n : string) :
  has_char sep n = false -> startswith "/" n = false.
Proof.
  destruct n as [ | a r]; [ reflexivity | ].
  cbn [has_char]; intros H; apply orb_false_iff in H; destruct H as [Ha _].
  unfold startswith; cbn [String.prefix].
  destruct (ascii_dec "/" a) as [Heq | Hne]; [ | reflexivity ].
  subst a; discriminate.
Qed.

Lemma app_assoc_sep (a b : string) :
  (a ++ String sep "") ++ b = a ++ String sep b.
Proof. induction a as [ | c a IH]; simpl; [ | rewrite IH ]; reflexivity. Qed.

(** The segments of [join d n] that a filter keeps, when the filter drops
    the empty segment and [n] holds no slash. *)
Lemma filter_split_join (f : string -> bool) (d n : string) :
  f "" = false ->
  has_char sep n = false ->
  filter f (split (join d n)) = (filter f (split d) ++ filter f [n])%list.
Proof.
  intros Hf Hn.
  unfold join; rewrite (startswith_sep_no_sep n Hn).
  destruct (String.eqb_spec d "") as [-> | Hd]; cbn [orb].
  - cbn [String.append split filter]; rewrite Hf, (split_no_sep n Hn).
    reflexivity.
  - destruct (endswith_char sep d) eqn:Hend.
    + destruct (endswith_char_inv sep d Hend) as [d' ->].
      rewrite app_assoc_sep.
      change (d' ++ String sep "") with (d' ++ String sep EmptyString).
      rewrite !split_app_sep, (split_no_sep n Hn), !filter_app.
      cbn [split filter]; rewrite Hf, app_nil_r; reflexivity.
    + change (d ++ "/" ++ n) with (d ++ String sep n).
      rewrite split_app_sep, (split_no_sep n Hn), filter_app; reflexivity.
Qed.

Lemma prefix_empty (s : string) : String.prefix "" s = true.
Proof. destruct s; reflexivity. Qed.

Lemma isabs_join (d n : string) :
  has_char sep n = false -> isabs (join d n) = isabs d.
Proof.
  intros Hn; unfold join; rewrite (startswith_sep_no_sep n Hn).
  destruct d as [ | c d]; cbn [String.eqb orb String.append].
  - apply startswith_sep_no_sep; exact Hn.
  - destruct (endswith_char sep (String c d)); unfold isabs, startswith;
      cbn [String.append String.prefix];
      destruct (ascii_dec "/" c); rewrite ?prefix_empty; reflexivity.
Qed.

Lemma join_not_empty (d n : string) :
  n <> "" -> has_char sep n = false -> String.eqb (join d n) "" = false.
Proof.
  intros Hne Hn; unfold join; rewrite (startswith_sep_no_sep n Hn).
  destruct d as [ | c d]; cbn [String.eqb orb String.append].
  - destruct n; [ contradiction | reflexivity ].
  - destruct (endswith_char sep (String c d)); reflexivity.
Qed.

End Paths.

(** * Properties of the fetcher *)

Section Fetch.

Import PosixPath.

Variable remote : Remote.

Lemma strip_prefix_app (l r : list string) :
  strip_prefix l (l ++ r) = Some r.
Proof.
  induction l as [ | x l IH]; simpl; [ destruct r; reflexivity | ].
  rewrite String.eqb_refl; exact IH.
Qed.

Lemma is_dot_false (n : string) :
  is_dot n = false -> String.eqb n "." = false /\ String.eqb n ".." = false.
Proof. unfold is_dot; intros H; apply orb_false_iff in H; exact H. Qed.

(** The working-copy path of a proper name is the entry of that name in
    the repositories root. *)
Lemma place_of_join (d n : string) :
  has_char sep n = false -> n <> "" -> is_dot n = false ->
  place_of d (join d n) = Child n.
Proof.
  intros Hn Hne Hdot; destruct (is_dot_false n Hdot) as [H1 H2].
  unfold place_of, components.
  rewrite (isabs_join d n Hn), Bool.eqb_reflx.
  rewrite (filter_split_join _ d n eq_refl Hn).
  cbn [filter]; rewrite H1.
  apply String.eqb_neq in Hne; rewrite Hne; cbn [negb andb].
  rewrite strip_prefix_app, H2; reflexivity.
Qed.

Lemma final_dot_join (d n : string) :
  has_char sep n = false -> n <> "" -> final_dot (join d n) = is_dot n.
Proof.
  intros Hn Hne; unfold final_dot.
  rewrite (filter_split_join nonempty d n eq_refl Hn).
  assert (Hkeep : nonempty n = true)
    by (unfold nonempty; apply String.eqb_neq in Hne; rewrite Hne;
        reflexivity).
  cbn [filter]; rewrite Hkeep, last_last; reflexivity.
Qed.

Lemma lookup_entry_remove (n : string) (es : listing) :
  lookup_entry n (remove_entry n es) = None.
Proof.
  induction es as [ | [m x] es IH]; simpl; [ reflexivity | ].
  destruct (String.eqb m n) eqn:Hm; [ exact IH | ].
  simpl; rewrite Hm; exact IH.
Qed.

Lemma lookup_entry_new (n : string) (x : node) (es : listing) :
  lookup_entry n es = None ->
  lookup_entry n (es ++ [(n, x)])%list = Some x.
Proof.
  induction es as [ | [m y] es IH]; simpl.
  - rewrite String.eqb_refl; reflexivity.
  - destruct (String.eqb m n); [ discriminate | exact IH ].
Qed.

Lemma same_index_refl (st : App) : same_index st st.
Proof. repeat split. Qed.

Lemma same_index_trans (a b c : App) :
  same_index a b -> same_index b c -> same_index a c.
Proof.
  unfold same_index; intros (? & ? & ? & ?) (? & ? & ? & ?).
  repeat split; congruence.
Qed.

Lemma rm_rf_same_index (p : string) (st : App) :
  same_index (snd (rm_rf p st)) st.
Proof.
  unfold rm_rf; destruct (final_dot p); [ apply same_index_refl | ].
  destruct (place_of (repos_dir st) p); repeat split.
Qed.

Lemma git_clone_same_index (url p : string) (st : App) :
  same_index (snd (git_clone remote url p st)) st.
Proof.
  unfold git_clone.
  destruct (remote url) as [tree | ]; [ | apply same_index_refl ].
  destruct (String.eqb p ""); [ apply same_index_refl | ].
  destruct (final_dot p); [ destruct (root st); repeat split | ].
  destruct (place_of (repos_dir st) p); try apply same_index_refl.
  - destruct (root st) as [ [ | e es] | ]; repeat split.
  - destruct (lookup_entry name _) as [x | ]; [ | repeat split ].
    destruct (is_empty_dir x); repeat split.
Qed.

Lemma rm_rf_stdout (p : string) (st : App) :
  stdout (snd (rm_rf p st)) = stdout st.
Proof.
  unfold rm_rf; destruct (final_dot p); [ reflexivity | ].
  destruct (place_of (repos_dir st) p); reflexivity.
Qed.

Lemma subprocess_run_check_state (out : Z * App) :
  snd (subprocess_run_check out) = snd out.
Proof.
  destruct out as [code st]; unfold subprocess_run_check.
  destruct (code =? 0); reflexivity.
Qed.

Lemma subprocess_run_check_result (out : Z * App) :
  fst (subprocess_run_check out)
  = if fst out =? 0 then Return tt else Raise (CalledProcessError (fst out)).
Proof.
  destruct out as [code st]; unfold subprocess_run_check; cbn [fst].
  destruct (code =? 0); reflexivity.
Qed.

(** With commands that can be started, [clone_repo] never lets an
    exception out: it returns the derived name or [None], and touches
    neither the table nor what is committed. *)
Lemma clone_repo_returns (repo_url : string) (st : App) :
  exists r st',
    clone_repo remote repo_url st = (Return r, st')
    /\ same_index st' st
    /\ (r = None \/ r = Some (url_repo_name repo_url)).
Proof.
  unfold clone_repo; fold (url_repo_name repo_url).
  set (name := url_repo_name repo_url).
  set (path := join (repos_dir st) name).
  assert (Hfirst : exists removed st1,
            (if os_path_exists st path
             then subprocess_run_check (rm_rf path st)
             else (Return tt, st)) = (removed, st1)
            /\ same_index st1 st
            /\ (removed = Return tt
                \/ exists c, removed = Raise (CalledProcessError c))).
  { destruct (os_path_exists st path).
    - exists (fst (subprocess_run_check (rm_rf path st))),
             (snd (subprocess_run_check (rm_rf path st))).
      split; [ destruct (subprocess_run_check _); reflexivity | ].
      split; [ rewrite subprocess_run_check_state; apply rm_rf_same_index | ].
      rewrite subprocess_run_check_result.
      destruct (fst (rm_rf path st) =? 0); [ left | right; eexists ];
        reflexivity.
    - exists (Return tt), st; split; [ reflexivity | ].
      split; [ apply same_index_refl | left; reflexivity ]. }
  destruct Hfirst as (removed & st1 & -> & Hsame1 & [-> | [c ->]]).
  - pose proof (git_clone_same_index repo_url path st1) as Hsame2.
    pose proof (subprocess_run_check_state
                  (git_clone remote repo_url path st1)) as Hst.
    pose proof (subprocess_run_check_result
                  (git_clone remote repo_url path st1)) as Hres.
    destruct (subprocess_run_check (git_clone remote repo_url path st1))
      as [cloned st2]; cbn [fst snd] in Hst, Hres; subst st2 cloned.
    destruct (fst (git_clone remote repo_url path st1) =? 0).
    + eexists _, _; split; [ reflexivity | ].
      split; [ eapply same_index_trans; eassumption | right; reflexivity ].
    + eexists _, _; split; [ reflexivity | ].
      split; [ | left; reflexivity ].
      eapply same_index_trans; [ | eapply same_index_trans; eassumption ].
      repeat split.
  - eexists _, _; split; [ reflexivity | ].
    split; [ | left; reflexivity ].
    eapply same_index_trans; [ | eassumption ]; repeat split.
Qed.

End Fetch.

Section FetchOutcomes.

Import PosixPath.

Variable remote : Remote.

(** A fetch that succeeds for a proper name leaves the working copy as the
    entry of that name in the repositories root, and the name is
    returned. *)
Lemma clone_repo_ok (repo_url : string) (st : App) (tree : listing) :
  url_repo_name repo_url <> "" ->
  is_dot (url_repo_name repo_url) = false ->
  remote repo_url = Some tree ->
  exists st',
    clone_repo remote repo_url st
    = (Return (Some (url_repo_name repo_url)), st')
    /\ same_index st' st
    /\ stdout st' = stdout st
    /\ exists es,
         root st' = Some es
         /\ lookup_entry (url_repo_name repo_url) es = Some (Dir tree).
Proof.
  intros Hne Hdot Hremote.
  pose proof (url_repo_name_no_sep repo_url) as Hsep.
  unfold clone_repo; fold (url_repo_name repo_url).
  set (name := url_repo_name repo_url) in *.
  set (path := join (repos_dir st) name).
  pose proof (place_of_join (repos_dir st) name Hsep Hne Hdot) as Hplace.
  pose proof (final_dot_join (repos_dir st) name Hsep Hne) as Hfinal.
  rewrite Hdot in Hfinal.
  pose proof (join_not_empty (repos_dir st) name Hne Hsep) as Hpath.
  fold path in Hplace, Hfinal, Hpath.
  destruct (os_path_exists st path) eqn:Hexists.
  - unfold rm_rf; rewrite Hfinal, Hplace.
    cbn [subprocess_run_check Z.eqb].
    unfold git_clone; rewrite Hremote, Hpath, Hfinal.
    cbn [repos_dir set_root root]; rewrite Hplace.
    assert (Hgone :
      lookup_entry name
        match option_map (remove_entry name) (root st) with
        | Some es => es
        | None => []
        end = None)
      by (destruct (root st); [ apply lookup_entry_remove | reflexivity ]).
    rewrite Hgone; cbn [subprocess_run_check Z.eqb].
    eexists; split; [ reflexivity | ].
    split; [ repeat split | ].
    split; [ reflexivity | ].
    eexists; split; [ reflexivity | ].
    apply lookup_entry_new; exact Hgone.
  - unfold os_path_exists in Hexists; rewrite Hpath, Hplace in Hexists.
    unfold git_clone; rewrite Hremote, Hpath, Hfinal, Hplace.
    assert (Hgone :
      lookup_entry name
        match root st with
        | Some es => es
        | None => []
        end = None).
    { destruct (root st) as [es | ]; [ | reflexivity ].
      destruct (lookup_entry name es); [ discriminate | reflexivity ]. }
    rewrite Hgone; cbn [subprocess_run_check Z.eqb].
    eexists; split; [ reflexivity | ].
    split; [ repeat split | ].
    split; [ reflexivity | ].
    eexists; split; [ reflexivity | ].
    apply lookup_entry_new; exact Hgone.
Qed.

(** A fetch that fails is signalled: [clone_repo] prints the error and
    returns [None]. *)
Lemma clone_repo_fetch_fails (repo_url : string) (st : App) :
  remote repo_url = None ->
  exists st' c,
    clone_repo remote repo_url st = (Return None, st')
    /\ same_index st' st
    /\ stdout st'
       = (stdout st ++ [ErrorCloning repo_url (CalledProcessError c)])%list.
Proof.
  intros Hremote.
  unfold clone_repo.
  set (path := join (repos_dir st) _).
  assert (Hclone : forall st1,
            subprocess_run_check (git_clone remote repo_url path st1)
            = (Raise (CalledProcessError 128), st1))
    by (intros st1; unfold git_clone; rewrite Hremote; reflexivity).
  destruct (os_path_exists st path).
  - pose proof (rm_rf_same_index path st) as Hsame.
    pose proof (subprocess_run_check_state (rm_rf path st)) as Hst.
    pose proof (subprocess_run_check_result (rm_rf path st)) as Hres.
    destruct (subprocess_run_check (rm_rf path st)) as [removed st1].
    cbn [fst snd] in Hst, Hres; subst st1 removed.
    destruct (fst (rm_rf path st) =? 0).
    + rewrite Hclone.
      eexists _, _; split; [ reflexivity | ].
      split; [ eapply same_index_trans; [ | exact Hsame ]; repeat split | ].
      cbn [print stdout]; rewrite rm_rf_stdout; reflexivity.
    + eexists _, _; split; [ reflexivity | ].
      split; [ eapply same_index_trans; [ | exact Hsame ]; repeat split | ].
      cbn [print stdout]; rewrite rm_rf_stdout; reflexivity.
  - rewrite Hclone.
    eexists _, _; split; [ reflexivity | ].
    split; [ repeat split | reflexivity ].
Qed.

(** A name that is [.] or [..] never gives a working copy: [rm] refuses
    the path when it exists, and [git] cannot create it when it does
    not. *)
Lemma clone_repo_dot (repo_url : string) (st : App) :
  is_dot (url_repo_name repo_url) = true ->
  exists st',
    clone_repo remote repo_url st = (Return None, st') /\ same_index st' st.
Proof.
  intros Hdot.
  pose proof (url_repo_name_no_sep repo_url) as Hsep.
  assert (Hne : url_repo_name repo_url <> "")
    by (intros Heq; rewrite Heq in Hdot; discriminate).
  unfold clone_repo; fold (url_repo_name repo_url).
  set (name := url_repo_name repo_url) in *.
  set (path := join (repos_dir st) name).
  pose proof (final_dot_join (repos_dir st) name Hsep Hne) as Hfinal.
  rewrite Hdot in Hfinal.
  pose proof (join_not_empty (repos_dir st) name Hne Hsep) as Hpath.
  fold path in Hfinal, Hpath.
  destruct (os_path_exists st path).
  - unfold rm_rf; rewrite Hfinal; cbn [subprocess_run_check Z.eqb].
    eexists; split; [ reflexivity | repeat split ].
  - unfold git_clone; rewrite Hpath, Hfinal.
    destruct (remote repo_url); cbn [subprocess_run_check Z.eqb];
      (eexists; split; [ reflexivity | ]).
    + destruct (root st); repeat split.
    + repeat split.
Qed.

End FetchOutcomes.

(** * Properties of the text decoding *)

Section Text.

Import Utf8.

Lemma in_range_high (lo hi : N) (a : ascii) :
  (0x80 <= lo)%N -> in_range lo hi a = true -> (code a <? 0x80)%N = false.
Proof.
  unfold in_range; intros Hlo H.
  apply andb_true_iff in H; destruct H as [H _].
  apply N.leb_le in H; apply N.ltb_ge; lia.
Qed.

Lemma continuation_high (a : ascii) :
  continuation a = true -> (code a <? 0x80)%N = false.
Proof. apply in_range_high; lia. Qed.

Lemma second_of_3_high (a0 a1 : ascii) :
  second_of_3 a0 a1 = true -> (code a1 <? 0x80)%N = false.
Proof.
  unfold second_of_3, continuation.
  destruct (code a0 =? 0xE0)%N; [ apply in_range_high; lia | ].
  destruct (code a0 =? 0xED)%N; apply in_range_high; lia.
Qed.

Lemma second_of_4_high (a0 a1 : ascii) :
  second_of_4 a0 a1 = true -> (code a1 <? 0x80)%N = false.
Proof.
  unfold second_of_4, continuation.
  destruct (code a0 =? 0xF0)%N; [ apply in_range_high; lia | ].
  destruct (code a0 =? 0xF4)%N; apply in_range_high; lia.
Qed.

(** A byte above 127 is no line end: the translation passes it on. *)
Lemma universal_newlines_high (a : ascii) (r : string) :
  (code a <? 0x80)%N = false ->
  universal_newlines (String a r) = String a (universal_newlines r).
Proof.
  intros Hhigh; cbn [universal_newlines].
  destruct (Ascii.eqb_spec a CR) as [-> | _]; [ discriminate | reflexivity ].
Qed.

Lemma universal_newlines_valid_bounded (n : nat) :
  forall s,
    (String.length s <= n)%nat ->
    valid s = true -> valid (universal_newlines s) = true.
Proof.
  induction n as [ | n IH]; intros [ | a0 r0] Hlen Hv; try reflexivity;
    cbn [String.length] in Hlen; [ lia | ].
  cbn [valid] in Hv.
  destruct (code a0 <? 0x80)%N eqn:H0.
  - (* an ASCII byte, perhaps a line end *)
    cbn [universal_newlines].
    destruct (Ascii.eqb a0 CR).
    + change (valid (String LF ?x)) with (valid x).
      destruct r0 as [ | b r']; [ reflexivity | ].
      cbn [String.length] in Hlen.
      destruct (Ascii.eqb_spec b LF) as [-> | _].
      * apply IH; [ lia | exact Hv ].
      * apply IH; [ cbn [String.length]; lia | exact Hv ].
    + cbn [valid]; rewrite H0; apply IH; [ lia | exact Hv ].
  - destruct (in_range 0xC2 0xDF a0) eqn:H2.
    { destruct r0 as [ | a1 r1]; [ discriminate | ].
      apply andb_true_iff in Hv; destruct Hv as [Hc1 Hv].
      cbn [String.length] in Hlen.
      rewrite (universal_newlines_high a0 _ H0).
      rewrite (universal_newlines_high a1 _ (continuation_high a1 Hc1)).
      cbn [valid]; rewrite H0, H2, Hc1; apply IH; [ lia | exact Hv ]. }
    destruct (in_range 0xE0 0xEF a0) eqn:H3.
    { destruct r0 as [ | a1 [ | a2 r2]]; try discriminate.
      apply andb_true_iff in Hv; destruct Hv as [Hv Hv2].
      apply andb_true_iff in Hv; destruct Hv as [Hs1 Hc2].
      cbn [String.length] in Hlen.
      rewrite (universal_newlines_high a0 _ H0).
      rewrite (universal_newlines_high a1 _ (second_of_3_high a0 a1 Hs1)).
      rewrite (universal_newlines_high a2 _ (continuation_high a2 Hc2)).
      cbn [valid]; rewrite H0, H2, H3, Hs1, Hc2; apply IH; [ lia | exact Hv2 ]. }
    destruct (in_range 0xF0 0xF4 a0) eqn:H4; [ | discriminate ].
    destruct r0 as [ | a1 [ | a2 [ | a3 r3]]]; try discriminate.
    apply andb_true_iff in Hv; destruct Hv as [Hv Hv3].
    apply andb_true_iff in Hv; destruct Hv as [Hv Hc3].
    apply andb_true_iff in Hv; destruct Hv as [Hs1 Hc2].
    cbn [String.length] in Hlen.
    rewrite (universal_newlines_high a0 _ H0).
    rewrite (universal_newlines_high a1 _ (second_of_4_high a0 a1 Hs1)).
    rewrite (universal_newlines_high a2 _ (continuation_high a2 Hc2)).
    rewrite (universal_newlines_high a3 _ (continuation_high a3 Hc3)).
    cbn [valid]; rewrite H0, H2, H3, H4, Hs1, Hc2, Hc3.
    apply IH; [ lia | exact Hv3 ].
Qed.

(** Reading valid UTF-8 in text mode gives valid UTF-8: the translation of
    line ends keeps the text well formed, so the content of a decoded file
    always binds as a parameter. *)
Lemma universal_newlines_valid (s : string) :
  valid s = true -> valid (universal_newlines s) = true.
Proof. apply (universal_newlines_valid_bounded (String.length s)); lia. Qed.

End Text.

(** * Properties of the walker *)

Section Walker.

Import PosixPath.

Lemma same_disk_refl (st : App) : same_disk st st.
Proof. repeat split. Qed.

Lemma same_disk_trans (a b c : App) :
  same_disk a b -> same_disk b c -> same_disk a c.
Proof.
  unfold same_disk; intros (? & ? & ?) (? & ? & ?); repeat split; congruence.
Qed.

(** What a stored row says of the file it comes from. *)
Lemma file_row_some (cwd repo_name repo_path root filename : string)
    (f : file) (row : Row) :
  file_row cwd repo_name repo_path root filename f = Some row ->
  Z.of_nat (List.length (data f)) <= 1000000
  /\ readable f = true
  /\ Utf8.decode (data f) = Return (string_of_list_byte (data f))
  /\ content row = Utf8.universal_newlines (string_of_list_byte (data f))
  /\ Utf8.valid (content row) = true.
Proof.
  unfold file_row, Utf8.decode.
  destruct (Z.ltb_spec 1000000 (Z.of_nat (List.length (data f))));
    [ discriminate | ].
  destruct (readable f); cbn [negb]; [ | discriminate ].
  destruct (Utf8.valid (string_of_list_byte (data f))); cbn [negb];
    [ | discriminate ].
  destruct (relpath cwd (join root filename) repo_path) as [rel | e];
    [ | discriminate ].
  destruct (forallb Utf8.valid _) eqn:Hall; [ | discriminate ].
  intros Hrow; injection Hrow as <-; cbn [content].
  repeat split; try assumption.
  cbn [columns forallb content] in Hall.
  repeat (apply andb_true_iff in Hall; destruct Hall as [? Hall]).
  assumption.
Qed.

Ltac no_row := simpl; rewrite ?app_nil_r; repeat split.

(** The effect of the loop body on one file: the row of the file, if it
    has one, is appended; nothing else of the index or of the disk
    changes. *)
Lemma index_file_effect (name repo_path root fname : string)
    (f : file) (st : App) :
  table (index_file name repo_path root fname f st)
  = (table st
     ++ option_list
          (file_row (cwd st) name repo_path root fname f))%list
  /\ same_disk (index_file name repo_path root fname f st) st
  /\ committed (index_file name repo_path root fname f st)
     = committed st.
Proof.
  unfold index_file, file_row, os_path_getsize, read_text, Utf8.decode.
  cbn [bind].
  destruct (1000000 <? Z.of_nat (List.length (data f)));
    [ no_row | ].
  destruct (readable f); cbn [negb];
    [ | no_row ].
  destruct (Utf8.valid (string_of_list_byte (data f))); cbn [negb bind];
    [ | no_row ].
  destruct (relpath (cwd st) (join root fname) repo_path) as [rel | e];
    cbn [bind]; [ | no_row ].
  unfold execute_insert, bind_text.
  cbn [columns forallb repo_name filepath filename content last_modified].
  destruct (Utf8.valid name); cbn [bind andb];
    [ | no_row ].
  destruct (Utf8.valid rel); cbn [bind andb];
    [ | no_row ].
  destruct (Utf8.valid fname); cbn [bind andb];
    [ | no_row ].
  destruct (Utf8.valid (Utf8.universal_newlines _)); cbn [bind andb];
    [ | no_row ].
  destruct (Utf8.valid (mtime_isoformat f)); cbn [bind andb];
    [ | no_row ].
  no_row.
Qed.

(** A loop whose body appends rows and leaves the disk alone appends the
    rows of all its turns. *)
Lemma fold_left_effect {X : Type} (body : App -> X -> App)
    (rows : string -> X -> list Row) :
  (forall st x,
     table (body st x) = (table st ++ rows (cwd st) x)%list
     /\ same_disk (body st x) st
     /\ committed (body st x) = committed st) ->
  forall l st,
    table (fold_left body l st) = (table st ++ flat_map (rows (cwd st)) l)%list
    /\ same_disk (fold_left body l st) st
    /\ committed (fold_left body l st) = committed st.
Proof.
  intros Hbody l; induction l as [ | x l IH]; intros st; cbn [fold_left flat_map].
  - rewrite app_nil_r; repeat split.
  - destruct (Hbody st x) as (Ht & Hd & Hc).
    destruct (IH (body st x)) as (Ht' & Hd' & Hc').
    assert (Hcwd : cwd (body st x) = cwd st) by apply Hd.
    rewrite Ht', Ht, Hcwd, app_assoc.
    split; [ reflexivity | ].
    split; [ eapply same_disk_trans; eassumption | congruence ].
Qed.

Lemma index_directory_effect (repo_name repo_path : string) (st : App)
    (entry : string * list (string * file)) :
  table (index_directory repo_name repo_path st entry)
  = (table st ++ directory_rows (cwd st) repo_name repo_path entry)%list
  /\ same_disk (index_directory repo_name repo_path st entry) st
  /\ committed (index_directory repo_name repo_path st entry) = committed st.
Proof.
  destruct entry as [root files]; unfold index_directory, directory_rows.
  cbn [fst snd].
  apply (fold_left_effect
           (fun st named =>
              index_file repo_name repo_path root (fst named) (snd named) st)
           (fun cwd named =>
              option_list
                (file_row cwd repo_name repo_path root (fst named)
                   (snd named)))).
  intros st0 named; apply index_file_effect.
Qed.

(** [index_repository] appends the rows of the files it walks, commits,
    and leaves the disk alone. *)
Lemma index_repository_effect (repo_name : string) (st : App) :
  let repo_path := join (repos_dir st) repo_name in
  table (index_repository repo_name st)
  = (table st
     ++ flat_map (directory_rows (cwd st) repo_name repo_path)
          (os_walk st repo_path))%list
  /\ same_disk (index_repository repo_name st) st
  /\ committed (index_repository repo_name st)
     = table (index_repository repo_name st).
Proof.
  intros repo_path; unfold index_repository; fold repo_path.
  destruct (fold_left_effect (index_directory repo_name repo_path)
              (fun cwd => directory_rows cwd repo_name repo_path)
              (index_directory_effect repo_name repo_path)
              (os_walk st repo_path) st) as (Ht & Hd & _).
  cbn [commit table committed]; split; [ exact Ht | ].
  split; [ | reflexivity ].
  destruct Hd as (? & ? & ?); repeat split; assumption.
Qed.

Lemma in_directory_rows (cwd repo_name repo_path : string)
    (entry : string * list (string * file)) (row : Row) :
  In row (directory_rows cwd repo_name repo_path entry) ->
  exists filename f,
    In (filename, f) (snd entry)
    /\ file_row cwd repo_name repo_path (fst entry) filename f = Some row.
Proof.
  unfold directory_rows; intros H.
  apply in_flat_map in H; destruct H as ([filename f] & Hin & Hrow).
  exists filename, f; split; [ exact Hin | ].
  cbn [fst snd] in Hrow.
  destruct (file_row cwd repo_name repo_path (fst entry) filename f);
    cbn in Hrow; [ destruct Hrow as [-> | []]; reflexivity | contradiction ].
Qed.

(** Every row that [index_repository] adds is the row of a file of the
    walk. *)
Lemma index_repository_rows (repo_name : string) (st : App) :
  let repo_path := join (repos_dir st) repo_name in
  exists kept,
    table (index_repository repo_name st) = (table st ++ kept)%list
    /\ forall row, In row kept ->
         exists root files filename f,
           In (root, files) (os_walk st repo_path)
           /\ In (filename, f) files
           /\ file_row (cwd st) repo_name repo_path root filename f = Some row.
Proof.
  intros repo_path.
  destruct (index_repository_effect repo_name st) as (Ht & _).
  fold repo_path in Ht.
  eexists; split; [ exact Ht | ].
  intros row Hrow.
  apply in_flat_map in Hrow; destruct Hrow as ([root files] & Hin & Hrow).
  destruct (in_directory_rows _ _ _ _ _ Hrow) as (filename & f & Hf & Hsome).
  exists root, files, filename, f; repeat split; assumption.
Qed.

(** C4.  A file of more than 1,000,000 bytes is skipped without a word:
    the loop body leaves the whole state as it was, so no row is stored and
    nothing is printed; and every row that [index_repository] stores is the
    row of a file of the walk that had at most 1,000,000 bytes. *)
Theorem oversized_files_are_skipped (repo_name : string) (st : App) :
  let repo_path := join (repos_dir st) repo_name in
  (forall root filename f st0,
     1000000 < Z.of_nat (List.length (data f)) ->
     index_file repo_name repo_path root filename f st0 = st0)
  /\ exists kept,
       table (index_repository repo_name st) = (table st ++ kept)%list
       /\ forall row, In row kept ->
            exists root files filename f,
              In (root, files) (os_walk st repo_path)
              /\ In (filename, f) files
              /\ Z.of_nat (List.length (data f)) <= 1000000
              /\ file_row (cwd st) repo_name repo_path root filename f
                 = Some row.
Proof.
  intros repo_path; split.
  - intros root filename f st0 Hbig.
    unfold index_file, os_path_getsize; cbn [bind].
    apply Z.ltb_lt in Hbig; rewrite Hbig; reflexivity.
  - destruct (index_repository_rows repo_name st) as (kept & Ht & Hkept).
    exists kept; split; [ exact Ht | ].
    intros row Hrow.
    destruct (Hkept row Hrow) as (root & files & filename & f & H1 & H2 & H3).
    exists root, files, filename, f; repeat split; try assumption.
    apply (file_row_some _ _ _ _ _ _ _ H3).
Qed.

(** C5.  A file whose bytes are not valid UTF-8 stores no row, and when it
    can be opened it is skipped without a word: the loop body leaves the
    whole state as it was; and every row that [index_repository] stores
    holds, as its content, the text that the bytes of a file of the walk
    decode to under UTF-8 (line ends read as a newline), which is valid
    UTF-8 text. *)
Theorem undecodable_files_are_skipped (repo_name : string) (st : App) :
  let repo_path := join (repos_dir st) repo_name in
  (forall root filename f st0,
     Utf8.decode (data f) = Raise UnicodeDecodeError ->
     table (index_file repo_name repo_path root filename f st0) = table st0
     /\ (readable f = true ->
         index_file repo_name repo_path root filename f st0 = st0))
  /\ exists kept,
       table (index_repository repo_name st) = (table st ++ kept)%list
       /\ forall row, In row kept ->
            exists root files filename f text,
              In (root, files) (os_walk st repo_path)
              /\ In (filename, f) files
              /\ Utf8.decode (data f) = Return text
              /\ content row = Utf8.universal_newlines text
              /\ Utf8.valid (content row) = true.
Proof.
  intros repo_path; split.
  - intros root filename f st0 Hbad.
    assert (Hinvalid : Utf8.valid (string_of_list_byte (data f)) = false).
    { unfold Utf8.decode in Hbad.
      destruct (Utf8.valid (string_of_list_byte (data f)));
        [ discriminate | reflexivity ]. }
    split.
    + destruct (index_file_effect repo_name repo_path root filename f st0)
        as (Ht & _).
      rewrite Ht; unfold file_row.
      destruct (1000000 <? _); [ apply app_nil_r | ].
      destruct (readable f); cbn [negb]; [ | apply app_nil_r ].
      rewrite Hinvalid; apply app_nil_r.
    + intros Hreadable.
      unfold index_file, os_path_getsize, read_text; cbn [bind].
      destruct (1000000 <? _); [ reflexivity | ].
      rewrite Hreadable, Hbad; reflexivity.
  - destruct (index_repository_rows repo_name st) as (kept & Ht & Hkept).
    exists kept; split; [ exact Ht | ].
    intros row Hrow.
    destruct (Hkept row Hrow) as (root & files & filename & f & H1 & H2 & H3).
    destruct (file_row_some _ _ _ _ _ _ _ H3) as (_ & _ & Hdec & Hcontent & Hv).
    exists root, files, filename, f, (string_of_list_byte (data f)).
    repeat split; assumption.
Qed.

End Walker.

Lemma oversized_files_are_skipped_witness :
  1000000 < Z.of_nat (List.length (data big_file))
  /\ index_file "proj" "repos/proj" "repos/proj" "big.bin" big_file fresh
     = fresh.
Proof.
  assert (Hbig : 1000000 < Z.of_nat (List.length (data big_file))).
  { unfold big_file; cbn [data]; rewrite repeat_length, Z2Nat.id; lia. }
  split; [ exact Hbig | ].
  exact (proj1 (oversized_files_are_skipped "proj" fresh)
           "repos/proj" "big.bin" big_file fresh Hbig).
Defined.

Lemma undecodable_files_are_skipped_witness :
  Utf8.decode (data latin1_file) = Raise UnicodeDecodeError
  /\ index_file "proj" "repos/proj" "repos/proj" "cafe.txt" latin1_file fresh
     = fresh.
Proof.
  assert (Hbad : Utf8.decode (data latin1_file) = Raise UnicodeDecodeError)
    by (vm_compute; reflexivity).
  split; [ exact Hbad | ].
  exact (proj2 (proj1 (undecodable_files_are_skipped "proj" fresh)
                  "repos/proj" "cafe.txt" latin1_file fresh Hbad) eq_refl).
Defined.

(** * Properties of the orchestrator *)

Section Orchestrator.

Import PosixPath.

Variable remote : Remote.

(** After a fetch that succeeds, the walk of the working-copy path is the
    walk of the tree that was checked out. *)
Lemma os_walk_working_copy (name : string) (st : App) (es tree : listing) :
  has_char sep name = false -> name <> "" -> is_dot name = false ->
  root st = Some es ->
  lookup_entry name es = Some (Dir tree) ->
  os_walk st (join (repos_dir st) name)
  = walk (join (repos_dir st) name) (Dir tree).
Proof.
  intros Hsep Hne Hdot Hroot Hentry; unfold os_walk.
  rewrite (join_not_empty _ _ Hne Hsep), (place_of_join _ _ Hsep Hne Hdot).
  rewrite Hroot, Hentry; reflexivity.
Qed.

(** One turn of the loop of [index_repositories]: the fetch never raises,
    and the table grows by the rows of the location. *)
Lemma index_each_step (repo_url : string) (st : App) :
  exists r st1 st2,
    clone_repo remote repo_url st = (Return r, st1)
    /\ st2 = match r with
             | Some name => if truthy r then index_repository name st1 else st1
             | None => st1
             end
    /\ table st2
       = (table st ++ location_rows remote (cwd st) (repos_dir st) repo_url)%list
    /\ repos_dir st2 = repos_dir st
    /\ cwd st2 = cwd st
    /\ (committed st = table st -> committed st2 = table st2).
Proof.
  pose proof (url_repo_name_no_sep repo_url) as Hsep.
  unfold location_rows.
  destruct (String.eqb_spec (url_repo_name repo_url) "") as [Hempty | Hne];
    cbn [orb].
  - (* the derived name is empty: whatever the fetch gives, no indexing *)
    destruct (clone_repo_returns remote repo_url st)
      as (r & st1 & Hclone & (Hd & Hc & Ht & Hm) & Hr).
    exists r, st1, st1; split; [ exact Hclone | ].
    split.
    { destruct Hr as [-> | ->]; [ reflexivity | ].
      rewrite Hempty; reflexivity. }
    rewrite app_nil_r; repeat split; congruence.
  - destruct (is_dot (url_repo_name repo_url)) eqn:Hdot.
    + destruct (clone_repo_dot remote repo_url st Hdot)
        as (st1 & Hclone & Hd & Hc & Ht & Hm).
      exists None, st1, st1; split; [ exact Hclone | ].
      split; [ reflexivity | ].
      rewrite app_nil_r; repeat split; congruence.
    + destruct (remote repo_url) as [tree | ] eqn:Hremote.
      * destruct (clone_repo_ok remote repo_url st tree Hne Hdot Hremote)
          as (st1 & Hclone & (Hd & Hc & Ht & Hm) & _ & es & Hroot & Hentry).
        exists (Some (url_repo_name repo_url)), st1,
               (index_repository (url_repo_name repo_url) st1).
        split; [ exact Hclone | ].
        split.
        { unfold truthy; apply String.eqb_neq in Hne; rewrite Hne.
          reflexivity. }
        destruct (index_repository_effect (url_repo_name repo_url) st1)
          as (Htable & (Hd2 & Hc2 & _) & Hcommitted).
        rewrite (os_walk_working_copy _ st1 es tree Hsep Hne Hdot Hroot Hentry)
          in Htable.
        rewrite Htable, Ht, Hc, Hd; unfold tree_rows.
        repeat split; try congruence.
      * destruct (clone_repo_fetch_fails remote repo_url st Hremote)
          as (st1 & c & Hclone & (Hd & Hc & Ht & Hm) & _).
        exists None, st1, st1; split; [ exact Hclone | ].
        split; [ reflexivity | ].
        rewrite app_nil_r; repeat split; congruence.
Qed.

(** The loop over the locations completes and stores, after what the table
    held, the rows of each location in turn. *)
Lemma index_each_spec (repo_urls : list string) :
  forall st,
    exists st',
      index_each remote repo_urls st = (Return tt, st')
      /\ table st'
         = (table st
            ++ flat_map (location_rows remote (cwd st) (repos_dir st))
                 repo_urls)%list
      /\ repos_dir st' = repos_dir st
      /\ cwd st' = cwd st
      /\ (committed st = table st -> committed st' = table st').
Proof.
  induction repo_urls as [ | repo_url rest IH]; intros st;
    cbn [index_each flat_map].
  - exists st; rewrite app_nil_r; repeat split; auto.
  - destruct (index_each_step repo_url st)
      as (r & st1 & st2 & Hclone & Hst2 & Ht & Hd & Hc & Hm).
    rewrite Hclone, <- Hst2.
    destruct (IH st2) as (st' & Hrun & Ht' & Hd' & Hc' & Hm').
    exists st'; split; [ exact Hrun | ].
    split; [ rewrite Ht', Ht, Hd, Hc, app_assoc; reflexivity | ].
    split; [ congruence | ].
    split; [ congruence | ].
    intros Hcommitted; apply Hm', Hm, Hcommitted.
Qed.

Lemma index_repositories_closed_form (repo_urls : list string) (st : App) :
  exists st',
    index_repositories remote repo_urls st = (Return tt, st')
    /\ table st'
       = flat_map (location_rows remote (cwd st) (repos_dir st)) repo_urls.
Proof.
  unfold index_repositories.
  destruct (index_each_spec repo_urls (commit (execute_delete st)))
    as (st' & Hrun & Ht & _).
  exists st'; split; [ exact Hrun | exact Ht ].
Qed.


(** A failed fetch does not stop the run, and every location whose fetch
    succeeds under a name that is neither empty nor [.] or [..] is indexed:
    the rows of its working copy are in the table after the run. *)
Lemma index_repositories_indexes_named_locations (repo_urls : list string)
    (st : App) (repo_url : string) (tree : listing) (row : Row) :
  In repo_url repo_urls ->
  remote repo_url = Some tree ->
  url_repo_name repo_url <> "" ->
  is_dot (url_repo_name repo_url) = false ->
  In row (tree_rows (cwd st) (url_repo_name repo_url)
            (join (repos_dir st) (url_repo_name repo_url)) tree) ->
  exists st',
    index_repositories remote repo_urls st = (Return tt, st')
    /\ In row (table st').
Proof.
  intros Hin Hremote Hne Hdot Hrow.
  destruct (index_repositories_closed_form repo_urls st) as (st' & Hrun & Ht).
  exists st'; split; [ exact Hrun | ].
  rewrite Ht; apply in_flat_map; exists repo_url; split; [ exact Hin | ].
  unfold location_rows.
  apply String.eqb_neq in Hne; rewrite Hne, Hdot, Hremote; exact Hrow.
Qed.

End Orchestrator.

(** * The location with an empty last segment *)

Section EmptyName.

Import PosixPath.

Lemma rfind_last (c : ascii) (p : string) :
  rfind c (p ++ String c "") = Z.of_nat (String.length p).
Proof.
  induction p as [ | a p IH].
  - cbn [String.append rfind]; rewrite Ascii.eqb_refl; reflexivity.
  - cbn [String.append rfind String.length]; rewrite IH.
    destruct (Z.leb_spec 0 (Z.of_nat (String.length p))); lia.
Qed.

Lemma slice_from_past_end (c : ascii) (p : string) :
  slice_from (S (String.length p)) (p ++ String c "") = "".
Proof. induction p as [ | a p IH]; [ reflexivity | exact IH ]. Qed.

(** The name derived from a location that ends in a slash is empty. *)
Lemma url_repo_name_trailing_sep (repo_url : string) :
  endswith_char sep repo_url = true -> url_repo_name repo_url = "".
Proof.
  intros Hend; destruct (endswith_char_inv sep repo_url Hend) as [p ->].
  unfold url_repo_name, basename; rewrite rfind_last.
  replace (Z.to_nat (Z.of_nat (String.length p) + 1))
    with (S (String.length p)) by lia.
  rewrite slice_from_past_end; reflexivity.
Qed.

(** The working-copy path of the empty name is the repositories root. *)
Lemma place_of_join_empty (d : string) : place_of d (join d "") = Root.
Proof.
  unfold place_of, components.
  rewrite (isabs_join d "" eq_refl), Bool.eqb_reflx.
  rewrite (filter_split_join _ d "" eq_refl eq_refl).
  cbn [filter String.eqb negb andb]; rewrite strip_prefix_app; reflexivity.
Qed.

Lemma final_dot_join_empty (d : string) : final_dot (join d "") = final_dot d.
Proof.
  unfold final_dot.
  rewrite (filter_split_join nonempty d "" eq_refl eq_refl).
  cbn [filter nonempty String.eqb negb]; rewrite app_nil_r; reflexivity.
Qed.

Lemma join_empty_not_empty (d : string) :
  d <> "" -> String.eqb (join d "") "" = false.
Proof.
  intros Hd; unfold join; cbn [startswith String.prefix].
  destruct d as [ | c d]; [ contradiction | ].
  cbn [String.eqb orb]; destruct (endswith_char sep (String c d)); reflexivity.
Qed.

(** C9.  For every location that ends in a slash the derived name is empty
    and the working-copy path is the repositories root itself; when that
    directory exists (and is not named through [.] or [..]),
    [os.path.exists] finds it, [rm -rf] removes it whole, and after
    [clone_repo] the root holds what this fetch checked out, or does not
    exist when the fetch fails: every working copy it held before is
    gone. *)
Theorem clone_repo_empty_name_removes_root (remote : Remote)
    (repo_url : string) (st : App) (es : listing) :
  endswith_char sep repo_url = true ->
  root st = Some es ->
  repos_dir st <> "" ->
  final_dot (repos_dir st) = false ->
  let repo_path := join (repos_dir st) (url_repo_name repo_url) in
  url_repo_name repo_url = ""
  /\ place_of (repos_dir st) repo_path = Root
  /\ os_path_exists st repo_path = true
  /\ rm_rf repo_path st = (0, set_root None st)
  /\ root (snd (clone_repo remote repo_url st)) = remote repo_url.
Proof.
  intros Hend Hroot Hdir Hfinal repo_path.
  pose proof (url_repo_name_trailing_sep repo_url Hend) as Hname.
  pose proof (place_of_join_empty (repos_dir st)) as Hplace.
  pose proof (final_dot_join_empty (repos_dir st)) as Hfd.
  pose proof (join_empty_not_empty (repos_dir st) Hdir) as Hpath.
  rewrite Hfinal in Hfd.
  assert (Hexists : os_path_exists st (join (repos_dir st) "") = true)
    by (unfold os_path_exists; rewrite Hpath, Hplace, Hroot; reflexivity).
  assert (Hrm : rm_rf (join (repos_dir st) "") st = (0, set_root None st))
    by (unfold rm_rf; rewrite Hfd, Hplace; reflexivity).
  unfold repo_path; rewrite Hname.
  split; [ reflexivity | ].
  split; [ exact Hplace | ].
  split; [ exact Hexists | ].
  split; [ exact Hrm | ].
  unfold clone_repo; fold (url_repo_name repo_url); rewrite Hname.
  rewrite Hexists, Hrm; cbn [subprocess_run_check Z.eqb].
  unfold git_clone; cbn [repos_dir set_root root].
  destruct (remote repo_url) as [tree | ];
    [ rewrite Hpath, Hfd, Hplace | ]; reflexivity.
Qed.

End EmptyName.

Lemma clone_repo_empty_name_removes_root_witness :
  root (set_root (Some [("proj", Dir demo_tree)]) fresh)
  = Some [("proj", Dir demo_tree)]
  /\ root (snd (clone_repo demo_remote "https://nowhere.invalid/gone/"
                  (set_root (Some [("proj", Dir demo_tree)]) fresh)))
     = None.
Proof.
  split; [ reflexivity | ].
  assert (Hdir : repos_dir (set_root (Some [("proj", Dir demo_tree)]) fresh)
                 <> "") by discriminate.
  destruct (clone_repo_empty_name_removes_root demo_remote
              "https://nowhere.invalid/gone/"
              (set_root (Some [("proj", Dir demo_tree)]) fresh)
              [("proj", Dir demo_tree)] eq_refl eq_refl Hdir eq_refl)
    as (_ & _ & _ & _ & Hgone).
  exact Hgone.
Defined.

(** * The run that skips a fetched location *)

(** C6, at the failing input.  The first location cannot be fetched: the
    failure is signalled, [clone_repo] returning [None], and the run goes
    on and completes.  The second location, which ends in a slash, is
    fetched, its working copy with an indexable [README.md] being on disk
    after the run; but the name [clone_repo] returns for it is empty, the
    orchestrator takes it for a failure, and the index holds no row of
    it. *)
Theorem index_repositories_skips_fetched_location :
  let repo_urls :=
    ["https://nowhere.invalid/x.git"; "https://github.com/team/proj/"] in
  exists st',
    index_repositories demo_remote repo_urls fresh = (Return tt, st')
    /\ fst (clone_repo demo_remote "https://nowhere.invalid/x.git" fresh)
       = Return None
    /\ fst (clone_repo demo_remote "https://github.com/team/proj/" fresh)
       = Return (Some "")
    /\ root st' = Some demo_tree
    /\ tree_rows (cwd fresh) "proj" "repos/proj" demo_tree <> []
    /\ table st' = [].
Proof.
  eexists; split; [ vm_compute; reflexivity | ].
  repeat split; try (vm_compute; reflexivity).
  vm_compute; discriminate.
Qed.

(** * Further properties of the search facade *)

Section SearchResults.

Context {E : Engine}.

Lemma sql_limit_all {A : Type} (n : Z) (l : list A) :
  n < 0 \/ Z.of_nat (List.length l) <= n -> sql_limit n l = l.
Proof.
  unfold sql_limit; intros [Hneg | Hall].
  - apply Z.ltb_lt in Hneg; rewrite Hneg; reflexivity.
  - destruct (n <? 0); [ reflexivity | ].
    apply firstn_all2; lia.
Qed.

(** X1.  The hits of [search_files] are sound and, under a limit that is
    negative or not below the number of matching rows, complete: every hit
    is the projection of a row of the table that the query matches, and
    then the hits are the projections of all the matching rows, one hit a
    row, in the order the rows were inserted. *)
Theorem search_files_hits_are_the_matching_rows (query : string)
    (limit : option Z) (st : App) (hits : list Hit) :
  fst (search_files query limit st) = Return hits ->
  exists q,
    fts5_parse query = Some q
    /\ (forall h, In h hits ->
          exists r,
            In r (table st) /\ fts5_match q (columns r) = true
            /\ h = select_hit q r)
    /\ (or_default limit 50 < 0
         \/ Z.of_nat
              (List.length
                 (filter (fun r => fts5_match q (columns r)) (table st)))
            <= or_default limit 50 ->
        hits = map (select_hit q)
                 (filter (fun r => fts5_match q (columns r)) (table st))).
Proof.
  intros Hret.
  destruct (search_files_returns query limit st hits Hret) as (q & Hp & ->).
  exists q; split; [ exact Hp | ].
  split.
  - intros h Hin.
    apply in_map_iff in Hin; destruct Hin as (r & <- & Hr).
    apply in_sql_limit, filter_In in Hr; destruct Hr as [Hr Hm].
    exists r; repeat split; assumption.
  - intros Hall; rewrite (sql_limit_all _ _ Hall); reflexivity.
Qed.

(** The outcome of [search_files] is a function of the arguments and of
    the rows of the table. *)
Lemma search_files_reads_the_table (query : string) (limit : option Z)
    (st1 st2 : App) :
  table st1 = table st2 ->
  fst (search_files query limit st1) = fst (search_files query limit st2).
Proof.
  intros Ht; unfold search_files, execute_select.
  destruct (bind_text query) as [query' | e]; cbn [bind fst];
    [ | reflexivity ].
  destruct (bind_int (or_default limit 50)) as [n | e]; cbn [bind fst];
    [ | reflexivity ].
  destruct (fts5_parse query') as [q | ]; cbn [fetchall fst cursor set_cursor];
    [ rewrite Ht | ]; reflexivity.
Qed.

Lemma search_files_state (query : string) (limit : option Z) (st : App) :
  snd (search_files query limit st) = st
  \/ snd (search_files query limit st) = set_cursor [] st.
Proof.
  unfold search_files, execute_select.
  destruct (bind_text query) as [query' | e]; cbn [bind snd];
    [ | left; reflexivity ].
  destruct (bind_int (or_default limit 50)) as [n | e]; cbn [bind snd];
    [ | left; reflexivity ].
  destruct (fts5_parse query') as [q | ]; cbn [fetchall snd];
    [ right | left ]; reflexivity.
Qed.

(** X2.  Searching is repeatable, and blind to everything but the table:
    the same call made again on the state the first call left gives the
    same outcome, hits or exception, and so does the call made after a
    fetch by [clone_repo], which changes the disk only. *)
Theorem search_files_is_repeatable (remote : Remote) (query : string)
    (limit : option Z) (repo_url : string) (st : App) :
  fst (search_files query limit (snd (search_files query limit st)))
  = fst (search_files query limit st)
  /\ fst (search_files query limit (snd (clone_repo remote repo_url st)))
     = fst (search_files query limit st).
Proof.
  split; apply search_files_reads_the_table.
  - destruct (search_files_state query limit st) as [-> | ->]; reflexivity.
  - destruct (clone_repo_returns remote repo_url st)
      as (r & st' & -> & (_ & _ & Ht & _) & _).
    exact Ht.
Qed.

(** X3.  The handler of [POST /search] never shows more than 50 hits,
    however many rows match: it calls [search_files] without a limit, and
    each of its hits is a matching row of the table. *)
Theorem search_shows_at_most_50_hits (form_query : option string) (st : App)
    (hits : list Hit) :
  fst (search form_query st) = Return hits ->
  (List.length hits <= 50)%nat
  /\ exists q,
       fts5_parse (or_default form_query "") = Some q
       /\ Z.of_nat (List.length hits)
          = Z.min 50
              (Z.of_nat
                 (List.length
                    (filter (fun r => fts5_match q (columns r)) (table st)))).
Proof.
  unfold search; fold (or_default form_query ""); intros Hret.
  destruct (search_files_returns _ None st hits Hret) as (q & Hp & ->).
  assert (Hlen :
    Z.of_nat
      (List.length
         (map (select_hit q)
            (sql_limit (or_default None 50)
               (filter (fun r => fts5_match q (columns r)) (table st)))))
    = Z.min 50
        (Z.of_nat
           (List.length
              (filter (fun r => fts5_match q (columns r)) (table st)))))
    by (rewrite length_map; apply sql_limit_length; cbn [or_default]; lia).
  split; [ lia | ].
  exists q; split; [ exact Hp | exact Hlen ].
Qed.

(** X4.  When the engine rejects the empty query, as the engine behind
    [MATCH] does, the handler of [POST /search] raises on a form without
    the field [query] and on a form with an empty one: the default of
    [request.form.get] is the empty string, and nothing between the form
    and the engine catches the error.  The state is left as it was. *)
Theorem search_raises_on_missing_query (st : App) :
  fts5_parse "" = None ->
  search None st = (Raise OperationalError, st)
  /\ search (Some "") st = (Raise OperationalError, st).
Proof.
  intros Hreject; unfold search.
  assert (Hrange : - 2 ^ 63 <= or_default None 50 < 2 ^ 63)
    by (cbn [or_default]; lia).
  rewrite (search_files_rejected "" None st eq_refl Hrange Hreject).
  split; reflexivity.
Qed.

End SearchResults.

Lemma search_files_hits_are_the_matching_rows_witness :
  exists q,
    @fts5_parse fts5_fragment "hello" = Some q
    /\ (forall h,
          In h [("proj", "README.md", "README.md", "proj")] ->
          exists r,
            In r (table (with_rows [readme_row]))
            /\ @fts5_match fts5_fragment q (columns r) = true
            /\ h = @select_hit fts5_fragment q r)
    /\ (or_default None 50 < 0
         \/ Z.of_nat
              (List.length
                 (filter (fun r => @fts5_match fts5_fragment q (columns r))
                    (table (with_rows [readme_row]))))
            <= or_default None 50 ->
        [("proj", "README.md", "README.md", "proj")]
        = map (@select_hit fts5_fragment q)
            (filter (fun r => @fts5_match fts5_fragment q (columns r))
               (table (with_rows [readme_row])))).
Proof.
  apply (@search_files_hits_are_the_matching_rows fts5_fragment "hello" None
           (with_rows [readme_row])).
  vm_compute; reflexivity.
Defined.

Lemma search_shows_at_most_50_hits_witness :
  exists hits,
    fst (@search fts5_fragment (Some "hello") (with_rows sixty_hello))
    = Return hits
    /\ (List.length hits <= 50)%nat.
Proof.
  eexists; split; [ vm_compute; reflexivity | ].
  apply (@search_shows_at_most_50_hits fts5_fragment (Some "hello")
           (with_rows sixty_hello)).
  vm_compute; reflexivity.
Defined.

Lemma search_raises_on_missing_query_witness :
  @search fts5_fragment None fresh = (Raise OperationalError, fresh).
Proof.
  apply (@search_raises_on_missing_query fts5_fragment fresh).
  vm_compute; reflexivity.
Defined.

(** * Further properties of the fetcher *)

Section FetchResults.

Import PosixPath.

Variable remote : Remote.

Lemma git_clone_stdout (url p : string) (st : App) :
  stdout (snd (git_clone remote url p st)) = stdout st.
Proof.
  unfold git_clone.
  destruct (remote url) as [tree | ]; [ | reflexivity ].
  destruct (String.eqb p ""); [ reflexivity | ].
  destruct (final_dot p); [ destruct (root st); reflexivity | ].
  destruct (place_of (repos_dir st) p); try reflexivity.
  - destruct (root st) as [ [ | e es] | ]; reflexivity.
  - destruct (lookup_entry name _) as [x | ]; [ | reflexivity ].
    destruct (is_empty_dir x); reflexivity.
Qed.

(** X5.  Given a location and a working-copy path that can be arguments
    of a process, [clone_repo] lets no exception out and leaves the index
    alone: whatever the disk and the answer of the remote end, it returns
    the name derived from the location, having printed nothing, or [None],
    having printed one line that names the location and the failed command;
    the table and the committed rows are those before the call. *)
Theorem clone_repo_returns_name_or_none (repo_url : string) (st : App) :
  clone_arguments (repos_dir st) repo_url = true ->
  exists r st',
    clone_repo remote repo_url st = (Return r, st')
    /\ table st' = table st
    /\ committed st' = committed st
    /\ ((r = Some (url_repo_name repo_url) /\ stdout st' = stdout st)
        \/ (r = None
            /\ exists c,
                 c <> 0
                 /\ stdout st'
                    = (stdout st
                       ++ [ErrorCloning repo_url (CalledProcessError c)])%list)).
Proof.
  intros _; unfold clone_repo; fold (url_repo_name repo_url).
  set (name := url_repo_name repo_url).
  set (path := join (repos_dir st) name).
  assert (Hclone : forall st1,
    same_index st1 st -> stdout st1 = stdout st ->
    exists r st',
      match
        (let (cloned, st2) :=
           subprocess_run_check (git_clone remote repo_url path st1) in
         match cloned with
         | Return _ => (Return name, st2)
         | Raise e => (Raise e, st2)
         end)
      with
      | (Return name0, st') => (Return (Some name0), st')
      | (Raise (CalledProcessError c), st') =>
          (Return None,
           print (ErrorCloning repo_url (CalledProcessError c)) st')
      | (Raise e, st') => (Raise e, st')
      end = (Return r, st')
      /\ table st' = table st
      /\ committed st' = committed st
      /\ ((r = Some name /\ stdout st' = stdout st)
          \/ (r = None
              /\ exists c,
                   c <> 0
                   /\ stdout st'
                      = (stdout st
                         ++ [ErrorCloning repo_url (CalledProcessError c)])%list))).
  { intros st1 (_ & _ & Ht & Hc) Hout.
    pose proof (git_clone_same_index remote repo_url path st1)
      as (_ & _ & Ht2 & Hc2).
    pose proof (git_clone_stdout repo_url path st1) as Hout2.
    destruct (git_clone remote repo_url path st1) as [code st2].
    cbn [snd] in Ht2, Hc2, Hout2; unfold subprocess_run_check.
    destruct (Z.eqb_spec code 0) as [-> | Hcode].
    - eexists _, _; split; [ reflexivity | ].
      split; [ congruence | ].
      split; [ congruence | left; split; [ reflexivity | congruence ] ].
    - eexists _, _; split; [ reflexivity | ].
      cbn [print table committed stdout].
      split; [ congruence | ].
      split; [ congruence | right; split; [ reflexivity | ] ].
      exists code; split; [ exact Hcode | congruence ]. }
  destruct (os_path_exists st path).
  - pose proof (rm_rf_same_index path st) as Hsame.
    pose proof (rm_rf_stdout path st) as Hout.
    destruct (rm_rf path st) as [code st1]; cbn [snd] in Hsame, Hout.
    unfold subprocess_run_check at 1.
    destruct (Z.eqb_spec code 0) as [-> | Hcode].
    + exact (Hclone st1 Hsame Hout).
    + destruct Hsame as (_ & _ & Ht & Hc).
      eexists _, _; split; [ reflexivity | ].
      cbn [print table committed stdout].
      split; [ exact Ht | ].
      split; [ exact Hc | right; split; [ reflexivity | ] ].
      exists code; split; [ exact Hcode | congruence ].
  - exact (Hclone st (same_index_refl st) eq_refl).
Qed.

End FetchResults.

Lemma clone_repo_returns_name_or_none_witness :
  exists r st',
    clone_repo demo_remote "https://github.com/team/proj.git" stale_disk
    = (Return r, st')
    /\ table st' = table stale_disk
    /\ committed st' = committed stale_disk
    /\ ((r = Some (url_repo_name "https://github.com/team/proj.git")
         /\ stdout st' = stdout stale_disk)
        \/ (r = None
            /\ exists c,
                 c <> 0
                 /\ stdout st'
                    = (stdout stale_disk
                       ++ [ErrorCloning "https://github.com/team/proj.git"
                             (CalledProcessError c)])%list)).
Proof.
  apply (clone_repo_returns_name_or_none demo_remote
           "https://github.com/team/proj.git" stale_disk).
  reflexivity.
Defined.

Section FetchNamed.

Import PosixPath.

Variable remote : Remote.

Lemma remove_entry_absent (n : string) (es : listing) :
  lookup_entry n es = None -> remove_entry n es = es.
Proof.
  induction es as [ | [m x] es IH]; simpl; [ reflexivity | ].
  destruct (String.eqb m n); [ discriminate | ].
  intros H; rewrite (IH H); reflexivity.
Qed.

Lemma lookup_entry_remove_other (n other : string) (es : listing) :
  other <> n ->
  lookup_entry other (remove_entry n es) = lookup_entry other es.
Proof.
  intros Hne; induction es as [ | [m x] es IH]; simpl; [ reflexivity | ].
  destruct (String.eqb_spec m n) as [-> | Hmn].
  - destruct (String.eqb_spec n other) as [-> | _]; [ contradiction | exact IH ].
  - simpl; rewrite IH; reflexivity.
Qed.

Lemma lookup_entry_app_other (n other : string) (x : node) (es : listing) :
  other <> n ->
  lookup_entry other (es ++ [(n, x)])%list = lookup_entry other es.
Proof.
  intros Hne; induction es as [ | [m y] es IH]; simpl.
  - destruct (String.eqb_spec n other) as [-> | _];
      [ contradiction | reflexivity ].
  - rewrite IH; reflexivity.
Qed.

(** What [clone_repo] does for a name that is neither empty nor [.] or
    [..]: the stale copy of that name is removed, and the fetch decides the
    rest. *)
Lemma clone_repo_named (repo_url : string) (st : App) :
  url_repo_name repo_url <> "" ->
  is_dot (url_repo_name repo_url) = false ->
  exists r st',
    clone_repo remote repo_url st = (Return r, st')
    /\ same_index st' st
    /\ match remote repo_url with
       | Some tree =>
           r = Some (url_repo_name repo_url)
           /\ stdout st' = stdout st
           /\ root st'
              = Some (remove_entry (url_repo_name repo_url)
                        (or_default (root st) [])
                      ++ [(url_repo_name repo_url, Dir tree)])%list
       | None =>
           r = None
           /\ stdout st'
              = (stdout st
                 ++ [ErrorCloning repo_url (CalledProcessError 128)])%list
           /\ root st'
              = option_map (remove_entry (url_repo_name repo_url)) (root st)
       end.
Proof.
  intros Hne Hdot.
  pose proof (url_repo_name_no_sep repo_url) as Hsep.
  unfold clone_repo; fold (url_repo_name repo_url).
  set (name := url_repo_name repo_url) in *.
  set (path := join (repos_dir st) name).
  pose proof (place_of_join (repos_dir st) name Hsep Hne Hdot) as Hplace.
  pose proof (final_dot_join (repos_dir st) name Hsep Hne) as Hfinal.
  rewrite Hdot in Hfinal.
  pose proof (join_not_empty (repos_dir st) name Hne Hsep) as Hpath.
  fold path in Hplace, Hfinal, Hpath.
  destruct (os_path_exists st path) eqn:Hexists.
  - unfold rm_rf; rewrite Hfinal, Hplace.
    cbn [subprocess_run_check Z.eqb].
    unfold git_clone.
    destruct (remote repo_url) as [tree | ].
    + rewrite Hpath, Hfinal.
      cbn [repos_dir set_root root]; rewrite Hplace.
      assert (Hgone :
        lookup_entry name
          match option_map (remove_entry name) (root st) with
          | Some es => es
          | None => []
          end = None)
        by (destruct (root st); [ apply lookup_entry_remove | reflexivity ]).
      rewrite Hgone; cbn [subprocess_run_check Z.eqb].
      eexists _, _; split; [ reflexivity | ].
      split; [ repeat split | ].
      split; [ reflexivity | ].
      split; [ reflexivity | ].
      cbn [root set_root]; destruct (root st); reflexivity.
    + cbn [subprocess_run_check Z.eqb].
      eexists _, _; split; [ reflexivity | ].
      split; [ repeat split | ].
      split; [ reflexivity | ].
      split; reflexivity.
  - unfold os_path_exists in Hexists; rewrite Hpath, Hplace in Hexists.
    assert (Habsent : lookup_entry name (or_default (root st) []) = None).
    { destruct (root st) as [es | ]; [ | reflexivity ].
      cbn [or_default]; destruct (lookup_entry name es);
        [ discriminate | reflexivity ]. }
    unfold git_clone.
    destruct (remote repo_url) as [tree | ].
    + rewrite Hpath, Hfinal, Hplace.
      fold (or_default (root st) []); rewrite Habsent.
      cbn [subprocess_run_check Z.eqb].
      eexists _, _; split; [ reflexivity | ].
      split; [ repeat split | ].
      split; [ reflexivity | ].
      split; [ reflexivity | ].
      cbn [root set_root]; rewrite (remove_entry_absent _ _ Habsent).
      reflexivity.
    + cbn [subprocess_run_check Z.eqb].
      eexists _, _; split; [ reflexivity | ].
      split; [ repeat split | ].
      split; [ reflexivity | ].
      split; [ reflexivity | ].
      cbn [print root]; destruct (root st) as [es | ]; [ | reflexivity ].
      cbn [option_map or_default] in *.
      rewrite (remove_entry_absent _ _ Habsent); reflexivity.
Qed.

(** X6.  A fetch that succeeds replaces the working copy of its own name
    and no other: after [clone_repo] the entry of the derived name is the
    tree just checked out, whatever stale copy stood there, and every other
    entry of the repositories root is what it was; the name is returned
    and nothing is printed. *)
Theorem clone_repo_replaces_only_its_working_copy (repo_url : string)
    (st : App) (tree : listing) :
  url_repo_name repo_url <> "" ->
  is_dot (url_repo_name repo_url) = false ->
  remote repo_url = Some tree ->
  exists st' es',
    clone_repo remote repo_url st
    = (Return (Some (url_repo_name repo_url)), st')
    /\ stdout st' = stdout st
    /\ root st' = Some es'
    /\ lookup_entry (url_repo_name repo_url) es' = Some (Dir tree)
    /\ forall other,
         other <> url_repo_name repo_url ->
         lookup_entry other es'
         = lookup_entry other (or_default (root st) []).
Proof.
  intros Hne Hdot Hremote.
  destruct (clone_repo_named repo_url st Hne Hdot)
    as (r & st' & Hclone & _ & Hcase).
  rewrite Hremote in Hcase; destruct Hcase as (-> & Hout & Hroot).
  eexists st', _; split; [ exact Hclone | ].
  split; [ exact Hout | ].
  split; [ exact Hroot | ].
  split.
  - apply lookup_entry_new, lookup_entry_remove.
  - intros other Hother.
    rewrite (lookup_entry_app_other _ _ _ _ Hother).
    apply lookup_entry_remove_other; exact Hother.
Qed.

(** X7.  A fetch that fails still costs the stale working copy: the copy
    of the derived name is removed before the fetch is tried, so after a
    failed [clone_repo] (of a location that, with the working-copy path,
    can be an argument of a process) the repositories root holds no entry
    of that name, every other entry being what it was; [None] is returned
    and one line is printed, which names the location and the failed
    command with its exit status, not zero. *)
Theorem clone_repo_failed_fetch_removes_stale_copy (repo_url : string)
    (st : App) (es : listing) :
  clone_arguments (repos_dir st) repo_url = true ->
  url_repo_name repo_url <> "" ->
  is_dot (url_repo_name repo_url) = false ->
  remote repo_url = None ->
  root st = Some es ->
  exists st' es' c,
    clone_repo remote repo_url st = (Return None, st')
    /\ c <> 0
    /\ stdout st'
       = (stdout st ++ [ErrorCloning repo_url (CalledProcessError c)])%list
    /\ root st' = Some es'
    /\ lookup_entry (url_repo_name repo_url) es' = None
    /\ forall other,
         other <> url_repo_name repo_url ->
         lookup_entry other es' = lookup_entry other es.
Proof.
  intros _ Hne Hdot Hremote Hroot.
  destruct (clone_repo_named repo_url st Hne Hdot)
    as (r & st' & Hclone & _ & Hcase).
  rewrite Hremote in Hcase; destruct Hcase as (-> & Hout & Hroot').
  rewrite Hroot in Hroot'; cbn [option_map] in Hroot'.
  eexists st', _, 128; split; [ exact Hclone | ].
  split; [ discriminate | ].
  split; [ exact Hout | ].
  split; [ exact Hroot' | ].
  split; [ apply lookup_entry_remove | ].
  intros other Hother; apply lookup_entry_remove_other; exact Hother.
Qed.

End FetchNamed.

Lemma clone_repo_replaces_only_its_working_copy_witness :
  exists st' es',
    clone_repo demo_remote "https://github.com/team/proj.git" stale_disk
    = (Return (Some "proj"), st')
    /\ root st' = Some es'
    /\ lookup_entry "proj" es' = Some (Dir demo_tree)
    /\ lookup_entry "other" es'
       = Some (Dir [("notes.txt", text_file "kept")]).
Proof.
  assert (Hne : url_repo_name "https://github.com/team/proj.git" <> "")
    by (vm_compute; discriminate).
  destruct (clone_repo_replaces_only_its_working_copy demo_remote
              "https://github.com/team/proj.git" stale_disk demo_tree
              Hne eq_refl eq_refl)
    as (st' & es' & Hclone & _ & Hroot & Hnew & Hothers).
  exists st', es'; split; [ exact Hclone | ].
  split; [ exact Hroot | ].
  split; [ exact Hnew | ].
  rewrite (Hothers "other"); [ reflexivity | vm_compute; discriminate ].
Defined.

Lemma clone_repo_failed_fetch_removes_stale_copy_witness :
  exists st' es',
    clone_repo demo_remote "https://nowhere.invalid/proj.git" stale_disk
    = (Return None, st')
    /\ root st' = Some es'
    /\ lookup_entry "proj" es' = None
    /\ lookup_entry "other" es'
       = Some (Dir [("notes.txt", text_file "kept")]).
Proof.
  assert (Hne : url_repo_name "https://nowhere.invalid/proj.git" <> "")
    by (vm_compute; discriminate).
  destruct (clone_repo_failed_fetch_removes_stale_copy demo_remote
              "https://nowhere.invalid/proj.git" stale_disk _
              eq_refl Hne eq_refl eq_refl eq_refl)
    as (st' & es' & c & Hclone & _ & _ & Hroot & Hgone & Hothers).
  exists st', es'; split; [ exact Hclone | ].
  split; [ exact Hroot | ].
  split; [ exact Hgone | ].
  rewrite (Hothers "other"); [ reflexivity | vm_compute; discriminate ].
Defined.

(** * The name of a working copy *)

Section RepoName.

Import PosixPath.

Lemma rfind_absent (c : ascii) (s : string) :
  has_char c s = false -> rfind c s = -1.
Proof.
  induction s as [ | a r IH]; cbn [has_char rfind]; [ reflexivity | ].
  intros H; apply orb_false_iff in H; destruct H as [Ha Hr].
  rewrite (IH Hr), Ha; reflexivity.
Qed.

Lemma rfind_before (c : ascii) (a s : string) :
  has_char c s = false ->
  rfind c (a ++ String c s) = Z.of_nat (String.length a).
Proof.
  intros Hs; induction a as [ | x a IH].
  - cbn [String.append rfind String.length].
    rewrite (rfind_absent c s Hs), Ascii.eqb_refl; reflexivity.
  - cbn [String.append rfind String.length]; rewrite IH.
    destruct (Z.leb_spec 0 (Z.of_nat (String.length a))); lia.
Qed.

Lemma slice_from_after (c : ascii) (a s : string) :
  slice_from (S (String.length a)) (a ++ String c s) = s.
Proof.
  induction a as [ | x a IH]; [ destruct s; reflexivity | exact IH ].
Qed.

Lemma slice_to_app (a b : string) : slice_to (String.length a) (a ++ b) = a.
Proof.
  induction a as [ | x a IH]; [ reflexivity | ].
  cbn [String.length String.append slice_to]; rewrite IH; reflexivity.
Qed.

Lemma slice_from_app (a b : string) :
  slice_from (String.length a) (a ++ b) = b.
Proof.
  induction a as [ | x a IH]; [ destruct b; reflexivity | exact IH ].
Qed.

Lemma has_char_app (c : ascii) (a b : string) :
  has_char c (a ++ b) = has_char c a || has_char c b.
Proof.
  induction a as [ | x a IH]; [ reflexivity | ].
  cbn [String.append has_char]; rewrite IH, orb_assoc; reflexivity.
Qed.

(** [basename] is the text after the last slash. *)
Lemma basename_last_segment (a s : string) :
  has_char sep s = false -> basename (a ++ String sep s) = s.
Proof.
  intros Hs; unfold basename; rewrite (rfind_before sep a s Hs).
  replace (Z.to_nat (Z.of_nat (String.length a) + 1))
    with (S (String.length a)) by lia.
  apply slice_from_after.
Qed.

(** [splitext] cuts a segment at its last dot, when something other than
    dots stands before it. *)
Lemma splitext_last_dot (stem ext : string) :
  has_char sep stem = false ->
  has_char sep ext = false ->
  has_char extsep ext = false ->
  all_char extsep stem = false ->
  splitext (stem ++ String extsep ext) = (stem, String extsep ext).
Proof.
  intros Hstem Hext Hdot Hsome; unfold splitext.
  assert (Hnosep : has_char sep (stem ++ String extsep ext) = false)
    by (rewrite has_char_app; cbn [has_char]; rewrite Hstem, Hext;
        reflexivity).
  rewrite (rfind_absent sep _ Hnosep), (rfind_before extsep stem ext Hdot).
  destruct (Z.ltb_spec (-1) (Z.of_nat (String.length stem))); [ | lia ].
  unfold slice; rewrite Nat2Z.id.
  change (Z.to_nat (-1 + 1)) with 0%nat; cbn [slice_from].
  rewrite Nat.sub_0_r, !slice_to_app, Hsome.
  rewrite slice_from_app; reflexivity.
Qed.

Lemma all_char_dots_proper (stem : string) :
  all_char extsep stem = false -> stem <> "" /\ is_dot stem = false.
Proof.
  intros Hsome; split.
  - intros ->; discriminate.
  - destruct (is_dot stem) eqn:Hdot; [ | reflexivity ].
    unfold is_dot in Hdot; apply orb_true_iff in Hdot.
    destruct Hdot as [Hd | Hd]; apply String.eqb_eq in Hd; subst stem;
      discriminate.
Qed.

(** X8.  [clone_repo] names the working copy after the last segment of the
    location, without its last extension, and after nothing else: for every
    location [a/stem.ext] (no slash in the stem or the extension, no dot in
    the extension, something other than dots in the stem) the derived name
    is [stem], whatever stands before the last slash; and when the fetch
    succeeds that name is returned and the working copy is the entry
    [stem] of the repositories root. *)
Theorem clone_repo_names_copy_after_last_segment (remote : Remote)
    (a stem ext : string) (st : App) :
  has_char sep stem = false ->
  has_char sep ext = false ->
  has_char extsep ext = false ->
  all_char extsep stem = false ->
  let repo_url := a ++ String sep (stem ++ String extsep ext) in
  url_repo_name repo_url = stem
  /\ forall tree,
       remote repo_url = Some tree ->
       exists st' es',
         clone_repo remote repo_url st = (Return (Some stem), st')
         /\ root st' = Some es'
         /\ lookup_entry stem es' = Some (Dir tree).
Proof.
  intros Hstem Hext Hdot Hsome repo_url.
  assert (Hname : url_repo_name repo_url = stem).
  { unfold url_repo_name, repo_url.
    rewrite basename_last_segment
      by (rewrite has_char_app; cbn [has_char]; rewrite Hstem, Hext;
          reflexivity).
    rewrite (splitext_last_dot stem ext Hstem Hext Hdot Hsome); reflexivity. }
  split; [ exact Hname | ].
  intros tree Hremote.
  destruct (all_char_dots_proper stem Hsome) as [Hne Hproper].
  rewrite <- Hname in Hne, Hproper.
  destruct (clone_repo_ok remote repo_url st tree Hne Hproper Hremote)
    as (st' & Hclone & _ & _ & es' & Hroot & Hentry).
  rewrite Hname in Hclone, Hentry.
  exists st', es'; repeat split; assumption.
Qed.

End RepoName.

Lemma clone_repo_names_copy_after_last_segment_witness :
  url_repo_name "https://github.com/runarhageland/strompris.git" = "strompris"
  /\ url_repo_name "git@example.org:mirrors/strompris.git" = "strompris".
Proof.
  split.
  - exact (proj1 (clone_repo_names_copy_after_last_segment demo_remote
                    "https://github.com/runarhageland" "strompris" "git"
                    fresh eq_refl eq_refl eq_refl eq_refl)).
  - exact (proj1 (clone_repo_names_copy_after_last_segment demo_remote
                    "git@example.org:mirrors" "strompris" "git"
                    fresh eq_refl eq_refl eq_refl eq_refl)).
Defined.

(** * Relative paths *)

Section RelPath.

Import PosixPath.

Lemma string_app_assoc (a b c : string) : (a ++ b) ++ c = a ++ (b ++ c).
Proof. induction a as [ | x a IH]; simpl; [ | rewrite IH ]; reflexivity. Qed.

Lemma entry_name_spec (s : string) :
  entry_name s = true ->
  has_char sep s = false /\ s <> "" /\ is_dot s = false.
Proof.
  unfold entry_name; intros H.
  apply andb_true_iff in H; destruct H as [H Hdot].
  apply andb_true_iff in H; destruct H as [Hsep Hne].
  apply negb_true_iff in Hsep, Hne, Hdot.
  apply String.eqb_neq in Hne; repeat split; assumption.
Qed.

(** The segments of [join a b] that a filter keeps, when the filter drops
    the empty segment and [b] is not absolute. *)
Lemma filter_split_join_relative (f : string -> bool) (a b : string) :
  f "" = false ->
  startswith "/" b = false ->
  filter f (split (join a b)) = (filter f (split a) ++ filter f (split b))%list.
Proof.
  intros Hf Hb; unfold join; rewrite Hb.
  destruct (String.eqb_spec a "") as [-> | Ha]; cbn [orb].
  - cbn [String.append split filter]; rewrite Hf; reflexivity.
  - destruct (endswith_char sep a) eqn:Hend.
    + destruct (endswith_char_inv sep a Hend) as [a' ->].
      rewrite app_assoc_sep, !split_app_sep, !filter_app.
      cbn [split filter]; rewrite Hf, app_nil_r; reflexivity.
    + change (a ++ "/" ++ b) with (a ++ String sep b).
      rewrite split_app_sep, filter_app; reflexivity.
Qed.

Lemma components_join_name (a n : string) :
  entry_name n = true -> components (join a n) = (components a ++ [n])%list.
Proof.
  intros Hn; destruct (entry_name_spec n Hn) as (Hsep & Hne & Hdot).
  destruct (is_dot_false n Hdot) as [H1 _].
  unfold components; rewrite (filter_split_join _ a n eq_refl Hsep).
  cbn [filter]; apply String.eqb_neq in Hne; rewrite Hne, H1; reflexivity.
Qed.

Lemma components_fold_join (names : list string) :
  Forall (fun n => entry_name n = true) names ->
  forall start,
    components (fold_left join names start)
    = (components start ++ names)%list.
Proof.
  induction 1 as [ | n names Hn _ IH]; intros start; cbn [fold_left].
  - rewrite app_nil_r; reflexivity.
  - rewrite IH, (components_join_name start n Hn), <- app_assoc; reflexivity.
Qed.

Lemma isabs_fold_join (names : list string) :
  Forall (fun n => entry_name n = true) names ->
  forall start, isabs (fold_left join names start) = isabs start.
Proof.
  induction 1 as [ | n names Hn _ IH]; intros start; cbn [fold_left];
    [ reflexivity | ].
  rewrite IH; apply isabs_join, (entry_name_spec n Hn).
Qed.

Lemma fold_join_not_empty (names : list string) (start : string) :
  Forall (fun n => entry_name n = true) names ->
  names <> [] ->
  String.eqb (fold_left join names start) "" = false.
Proof.
  intros Hall; revert start.
  induction Hall as [ | n names Hn Hall IH]; intros start Hne;
    [ contradiction | ].
  cbn [fold_left]; destruct names as [ | m names'].
  - destruct (entry_name_spec n Hn) as (Hsep & Hn0 & _).
    apply join_not_empty; assumption.
  - apply IH; discriminate.
Qed.

(** *** [normpath] on an absolute path *)

Lemma normpath_step_rooted (k : nat) (acc : list string) (c : string) :
  k <> 0%nat -> normpath_step k acc c = normpath_step 1 acc c.
Proof.
  intros Hk; unfold normpath_step.
  destruct k as [ | k]; [ contradiction | reflexivity ].
Qed.

Lemma fold_normpath_step_rooted (k : nat) (l acc : list string) :
  k <> 0%nat ->
  fold_left (normpath_step k) l acc = fold_left (normpath_step 1) l acc.
Proof.
  intros Hk; revert acc; induction l as [ | c l IH]; intros acc;
    cbn [fold_left]; [ reflexivity | ].
  rewrite (normpath_step_rooted k acc c Hk); apply IH.
Qed.

(** The loop of [normpath] passes over the empty segments and the dots. *)
Lemma fold_normpath_step_components (k : nat) (l acc : list string) :
  fold_left (normpath_step k) l acc
  = fold_left (normpath_step k)
      (filter (fun c => negb (String.eqb c "") && negb (String.eqb c ".")) l)
      acc.
Proof.
  revert acc; induction l as [ | c l IH]; intros acc; cbn [fold_left filter];
    [ reflexivity | ].
  assert (Hskip : String.eqb c "" || String.eqb c "." = true ->
                  normpath_step k acc c = acc)
    by (unfold normpath_step; intros ->; reflexivity).
  destruct (String.eqb c ""); cbn [negb andb orb] in *.
  - rewrite (Hskip eq_refl); apply IH.
  - destruct (String.eqb c "."); cbn [negb andb] in *.
    + rewrite (Hskip eq_refl); apply IH.
    + cbn [fold_left]; apply IH.
Qed.

Lemma normpath_step_name (k : nat) (acc : list string) (n : string) :
  entry_name n = true -> normpath_step k acc n = (acc ++ [n])%list.
Proof.
  intros Hn; destruct (entry_name_spec n Hn) as (_ & Hne & Hdot).
  destruct (is_dot_false n Hdot) as [H1 H2].
  unfold normpath_step; apply String.eqb_neq in Hne.
  rewrite Hne, H1, H2; reflexivity.
Qed.

Lemma fold_normpath_step_names (k : nat) (names : list string) :
  Forall (fun n => entry_name n = true) names ->
  forall acc,
    fold_left (normpath_step k) names acc = (acc ++ names)%list.
Proof.
  induction 1 as [ | n names Hn _ IH]; intros acc; cbn [fold_left].
  - rewrite app_nil_r; reflexivity.
  - rewrite (normpath_step_name k acc n Hn), IH, <- app_assoc; reflexivity.
Qed.

Lemma normpath_absolute (p : string) :
  isabs p = true ->
  exists slashes,
    (slashes = "/" \/ slashes = "//")
    /\ normpath p
       = slashes
         ++ String.concat "/"
              (fold_left (normpath_step 1) (components p) []).
Proof.
  unfold isabs; intros Habs; unfold normpath.
  destruct (String.eqb_spec p "") as [-> | _]; [ discriminate | ].
  rewrite Habs.
  destruct (startswith "//" p && negb (startswith "///" p)).
  - exists "//"; split; [ right; reflexivity | ].
    rewrite fold_normpath_step_rooted by discriminate.
    rewrite fold_normpath_step_components; reflexivity.
  - exists "/"; split; [ left; reflexivity | ].
    rewrite fold_normpath_step_components; reflexivity.
Qed.

(** *** Segments *)

Lemma split_segments_no_sep (p : string) :
  Forall (fun c => has_char sep c = false) (split p).
Proof.
  induction p as [ | a r IH]; cbn [split].
  - constructor; [ reflexivity | constructor ].
  - destruct (Ascii.eqb a sep) eqn:Ha.
    + constructor; [ reflexivity | exact IH ].
    + pose proof (split_not_nil r) as Hne.
      destruct (split r) as [ | s ss]; [ contradiction | ].
      inversion IH as [ | ? ? Hs Hss]; subst.
      constructor; [ cbn [has_char]; rewrite Ha, Hs; reflexivity | exact Hss ].
Qed.

Lemma components_clean (p : string) : Forall clean (components p).
Proof.
  unfold components; pose proof (split_segments_no_sep p) as Hall.
  induction Hall as [ | c l Hc _ IH]; cbn [filter]; [ constructor | ].
  destruct (String.eqb_spec c "") as [-> | Hne]; cbn [negb andb];
    [ exact IH | ].
  destruct (String.eqb c "."); cbn [negb]; [ exact IH | ].
  constructor; [ split; assumption | exact IH ].
Qed.

Lemma entry_names_clean (names : list string) :
  Forall (fun n => entry_name n = true) names -> Forall clean names.
Proof.
  induction 1 as [ | n names Hn _ IH]; constructor; [ | exact IH ].
  destruct (entry_name_spec n Hn) as (Hsep & Hne & _); split; assumption.
Qed.

Lemma Forall_removelast {A : Type} (P : A -> Prop) (l : list A) :
  Forall P l -> Forall P (removelast l).
Proof.
  induction 1 as [ | x l Hx Hl IH]; cbn [removelast]; [ constructor | ].
  destruct l; [ constructor | constructor; assumption ].
Qed.

Lemma fold_normpath_step_clean (k : nat) (l : list string) :
  Forall clean l ->
  forall acc, Forall clean acc ->
    Forall clean (fold_left (normpath_step k) l acc).
Proof.
  induction 1 as [ | c l Hc _ IH]; intros acc Hacc; cbn [fold_left];
    [ exact Hacc | ].
  apply IH; unfold normpath_step.
  destruct (String.eqb c "" || String.eqb c "."); [ exact Hacc | ].
  destruct (negb (String.eqb c "..") || _ || _).
  - apply Forall_app; split; [ exact Hacc | constructor; [ exact Hc | constructor ] ].
  - apply Forall_removelast; exact Hacc.
Qed.

Lemma split_concat (l : list string) :
  Forall clean l -> l <> [] -> split (String.concat "/" l) = l.
Proof.
  induction 1 as [ | c l [Hc _] Hl IH]; intros Hne; [ contradiction | ].
  destruct l as [ | d l'].
  - cbn [String.concat]; apply split_no_sep; exact Hc.
  - change (String.concat "/" (c :: d :: l'))
      with (c ++ String sep (String.concat "/" (d :: l'))).
    rewrite split_app_sep, (split_no_sep c Hc), IH by discriminate.
    reflexivity.
Qed.

Lemma filter_nonempty_clean (l : list string) :
  Forall clean l -> filter nonempty l = l.
Proof.
  induction 1 as [ | c l [_ Hc] _ IH]; cbn [filter]; [ reflexivity | ].
  unfold nonempty at 1; apply String.eqb_neq in Hc; rewrite Hc, IH.
  reflexivity.
Qed.

(** The segments of a normalized absolute path are its components. *)
Lemma segments_of_rooted (slashes : string) (l : list string) :
  slashes = "/" \/ slashes = "//" ->
  Forall clean l ->
  filter nonempty (split (slashes ++ String.concat "/" l)) = l.
Proof.
  intros Hsl Hl.
  assert (Htail : filter nonempty (split (String.concat "/" l)) = l).
  { destruct l as [ | c l']; [ reflexivity | ].
    rewrite (split_concat _ Hl) by discriminate.
    apply filter_nonempty_clean; exact Hl. }
  destruct Hsl as [-> | ->]; cbn [String.append split Ascii.eqb sep];
    cbn; exact Htail.
Qed.

Lemma commonprefix_len_app (l r : list string) :
  commonprefix_len l (l ++ r) = List.length l.
Proof.
  induction l as [ | x l IH]; cbn [commonprefix_len app List.length].
  - destruct r; reflexivity.
  - rewrite String.eqb_refl, IH; reflexivity.
Qed.

Lemma skipn_length_app {A : Type} (l r : list A) :
  skipn (List.length l) (l ++ r) = r.
Proof. induction l as [ | x l IH]; [ reflexivity | exact IH ]. Qed.

(** [relpath] of a path that goes down from [start] through entries of
    directories is the list of the names, joined: an absolute working
    directory given, neither [start] nor the working directory shows in
    the result. *)
Lemma relpath_below (cwd start : string) (names : list string) :
  isabs cwd = true ->
  Forall (fun n => entry_name n = true) names ->
  names <> [] ->
  relpath cwd (fold_left join names start) start = Return (join_all names).
Proof.
  intros Hcwd Hnames Hne; unfold relpath.
  rewrite (fold_join_not_empty names start Hnames Hne).
  set (full := fun p : string => if isabs p then p else join cwd p).
  assert (Habs : forall p, isabs (full p) = true).
  { intros p; unfold full; destruct (isabs p) eqn:Hp; [ exact Hp | ].
    unfold join; unfold isabs in Hp; rewrite Hp.
    destruct cwd as [ | c cwd']; [ discriminate | ].
    destruct (String.eqb (String c cwd') "" || endswith_char sep (String c cwd'));
      unfold isabs, startswith in *;
      cbn [String.append String.prefix] in *;
      (destruct (ascii_dec "/" c); [ apply prefix_empty | discriminate ]). }
  assert (Hcomp :
    components (full (fold_left join names start))
    = (components (full start) ++ names)%list).
  { unfold full; rewrite (isabs_fold_join names Hnames).
    destruct (isabs start) eqn:Hstart.
    - apply components_fold_join; exact Hnames.
    - unfold components.
      rewrite !(filter_split_join_relative _ cwd) by
        (try reflexivity; unfold isabs in *;
         try rewrite (isabs_fold_join names Hnames start : startswith _ _ = _);
         assumption).
      fold (components (fold_left join names start)).
      rewrite (components_fold_join names Hnames); unfold components.
      rewrite app_assoc; reflexivity. }
  unfold abspath; fold (full start); fold (full (fold_left join names start)).
  destruct (normpath_absolute _ (Habs start)) as (s1 & Hs1 & ->).
  destruct (normpath_absolute _ (Habs (fold_left join names start)))
    as (s2 & Hs2 & ->).
  rewrite Hcomp, fold_left_app.
  rewrite (fold_normpath_step_names 1 names Hnames).
  set (base := fold_left (normpath_step 1) (components (full start)) []).
  assert (Hbase : Forall clean base)
    by (apply fold_normpath_step_clean;
        [ apply components_clean | constructor ]).
  rewrite (segments_of_rooted s1 base Hs1 Hbase).
  rewrite (segments_of_rooted s2 (base ++ names) Hs2)
    by (apply Forall_app; split;
        [ exact Hbase | apply entry_names_clean; exact Hnames ]).
  rewrite commonprefix_len_app, Nat.sub_diag, skipn_length_app.
  cbn [repeat app]; destruct names; [ contradiction | reflexivity ].
Qed.

End RelPath.

(** * The files of a working copy *)

Section TreeFiles.

Import PosixPath.

Lemma endswith_char_app (c : ascii) (a b : string) :
  b <> "" -> endswith_char c (a ++ b) = endswith_char c b.
Proof.
  intros Hb; induction a as [ | x a IH]; [ reflexivity | ].
  cbn [String.append endswith_char]; rewrite IH.
  destruct (a ++ b) eqn:Hab; [ | reflexivity ].
  destruct a; [ cbn in Hab; contradiction | discriminate ].
Qed.

Lemma endswith_char_absent (c : ascii) (s : string) :
  has_char c s = false -> endswith_char c s = false.
Proof.
  induction s as [ | a r IH]; [ reflexivity | ].
  cbn [has_char endswith_char]; intros H.
  apply orb_false_iff in H; destruct H as [Ha Hr].
  destruct r; [ exact Ha | apply IH; exact Hr ].
Qed.

Lemma join_name (acc n : string) :
  acc <> "" -> endswith_char sep acc = false -> entry_name n = true ->
  join acc n = acc ++ String sep n.
Proof.
  intros Hacc Hend Hn; destruct (entry_name_spec n Hn) as (Hsep & _ & _).
  unfold join; rewrite (startswith_sep_no_sep n Hsep), Hend.
  apply String.eqb_neq in Hacc; rewrite Hacc; reflexivity.
Qed.

Lemma fold_join_names (names : list string) :
  Forall (fun n => entry_name n = true) names ->
  forall acc,
    acc <> "" -> endswith_char sep acc = false ->
    fold_left join names acc
    = match names with
      | [] => acc
      | _ => acc ++ String sep (String.concat "/" names)
      end.
Proof.
  induction 1 as [ | n names Hn Hall IH]; intros acc Hacc Hend;
    [ reflexivity | ].
  cbn [fold_left]; rewrite (join_name acc n Hacc Hend Hn).
  destruct (entry_name_spec n Hn) as (Hsep & Hne & _).
  rewrite IH.
  - destruct names as [ | m names']; [ reflexivity | ].
    change (String.concat "/" (n :: m :: names'))
      with (n ++ String sep (String.concat "/" (m :: names'))).
    rewrite string_app_assoc; reflexivity.
  - destruct acc; [ contradiction | discriminate ].
  - rewrite endswith_char_app by discriminate.
    cbn [endswith_char]; destruct n; [ contradiction | ].
    apply endswith_char_absent; exact Hsep.
Qed.

(** Names of entries joined one after the other are the names with a
    slash between them. *)
Lemma join_all_names (names : list string) :
  Forall (fun n => entry_name n = true) names ->
  join_all names = String.concat "/" names.
Proof.
  intros Hall; destruct Hall as [ | n names Hn Hall]; [ reflexivity | ].
  destruct (entry_name_spec n Hn) as (Hsep & Hne & _).
  cbn [join_all].
  rewrite (fold_join_names names Hall n Hne (endswith_char_absent _ _ Hsep)).
  destruct names; reflexivity.
Qed.

(** The files that [os.walk] yields, each under the path of its directory,
    are the files of the tree, each under the names that lead to it joined
    to the top. *)
Lemma walk_tree_files :
  forall (n : node) (top : string),
    flat_map
      (fun entry : string * list (string * file) =>
         map (fun named : string * file => (fst entry, fst named, snd named))
             (snd entry))
      (walk top n)
    = map (fun t : list string * string * file =>
             (fold_left join (fst (fst t)) top, snd (fst t), snd t))
          (tree_files n).
Proof.
  fix IH 1; intros [f | es] top; [ reflexivity | ].
  cbn [walk tree_files flat_map fst snd].
  rewrite map_app, map_map; cbn [fst snd fold_left].
  f_equal.
  induction es as [ | [name x] es IHes]; [ reflexivity | ].
  pose proof (IH x (join top name)) as IHx.
  destruct x as [f | es']; [ exact IHes | ].
  rewrite flat_map_app, map_app, IHes, IHx.
  rewrite map_map; reflexivity.
Qed.

(** Every regular file of the tree is yielded once. *)
Lemma tree_files_count :
  forall n : node, List.length (tree_files n) = files_below n.
Proof.
  fix IH 1; intros [f | es]; [ reflexivity | ].
  cbn [tree_files files_below]; rewrite length_app, length_map.
  induction es as [ | [name x] es IHes]; [ reflexivity | ].
  pose proof (IH x) as IHx.
  destruct x as [f | es'].
  - cbn [nondirs List.length]; rewrite <- IHes; lia.
  - cbn [nondirs]; rewrite length_app, length_map, IHx.
    rewrite <- IHes; lia.
Qed.

End TreeFiles.

(** * What the walker stores *)

Section WalkerResults.

Import PosixPath.

Lemma file_row_fields (cwd name repo_path root fname : string) (f : file)
    (row : Row) :
  file_row cwd name repo_path root fname f = Some row ->
  repo_name row = name
  /\ filename row = fname
  /\ last_modified row = mtime_isoformat f
  /\ relpath cwd (join root fname) repo_path = Return (filepath row).
Proof.
  unfold file_row.
  destruct (1000000 <? Z.of_nat (List.length (data f))); [ discriminate | ].
  destruct (readable f); cbn [negb]; [ | discriminate ].
  destruct (Utf8.valid (string_of_list_byte (data f))); cbn [negb];
    [ | discriminate ].
  destruct (relpath cwd (join root fname) repo_path) as [rel | e];
    [ | discriminate ].
  destruct (forallb Utf8.valid _); [ | discriminate ].
  intros Hrow; injection Hrow as <-; repeat split.
Qed.

(** A file that passes every filter of the walker has a row. *)
Lemma file_row_text_file (cwd name repo_path root fname rel : string)
    (f : file) :
  Z.of_nat (List.length (data f)) <= 1000000 ->
  readable f = true ->
  Utf8.valid (string_of_list_byte (data f)) = true ->
  relpath cwd (join root fname) repo_path = Return rel ->
  Utf8.valid name = true -> Utf8.valid rel = true ->
  Utf8.valid fname = true -> Utf8.valid (mtime_isoformat f) = true ->
  file_row cwd name repo_path root fname f
  = Some {| repo_name := name; filepath := rel; filename := fname;
            content :=
              Utf8.universal_newlines (string_of_list_byte (data f));
            last_modified := mtime_isoformat f |}.
Proof.
  intros Hsize Hread Hvalid Hrel Hn Hr Hf Hm; unfold file_row.
  destruct (Z.ltb_spec 1000000 (Z.of_nat (List.length (data f))));
    [ lia | ].
  rewrite Hread, Hvalid, Hrel; cbn [negb].
  cbn [columns forallb repo_name filepath filename content last_modified].
  rewrite Hn, Hr, Hf, Hm, (universal_newlines_valid _ Hvalid); reflexivity.
Qed.

Lemma walk_file_in_tree (n : node) (top root : string)
    (files : list (string * file)) (fname : string) (f : file) :
  In (root, files) (walk top n) -> In (fname, f) files ->
  exists ds, In (ds, fname, f) (tree_files n) /\ root = fold_left join ds top.
Proof.
  intros Hw Hf.
  assert (H : In (root, fname, f)
                (flat_map
                   (fun entry : string * list (string * file) =>
                      map (fun named : string * file =>
                             (fst entry, fst named, snd named))
                          (snd entry))
                   (walk top n))).
  { apply in_flat_map; exists (root, files); split; [ exact Hw | ].
    cbn [fst snd]; apply in_map_iff; exists (fname, f).
    split; [ reflexivity | exact Hf ]. }
  rewrite walk_tree_files in H; apply in_map_iff in H.
  destruct H as ([[ds fn] f'] & Heq & Hin); cbn [fst snd] in Heq.
  injection Heq as Hr Hn Hf'; subst fn f'.
  exists ds; split; [ exact Hin | symmetry; exact Hr ].
Qed.

Lemma tree_file_in_walk (n : node) (top : string) (ds : list string)
    (fname : string) (f : file) :
  In (ds, fname, f) (tree_files n) ->
  exists files,
    In (fold_left join ds top, files) (walk top n) /\ In (fname, f) files.
Proof.
  intros Hin.
  assert (H : In (fold_left join ds top, fname, f)
                (map (fun t : list string * string * file =>
                        (fold_left join (fst (fst t)) top, snd (fst t), snd t))
                     (tree_files n)))
    by (apply in_map_iff; exists (ds, fname, f); split;
        [ reflexivity | exact Hin ]).
  rewrite <- walk_tree_files in H; apply in_flat_map in H.
  destruct H as ([root files] & Hw & Hf); cbn [fst snd] in Hf.
  apply in_map_iff in Hf; destruct Hf as ([fn f'] & Heq & Hf).
  cbn [fst snd] in Heq; injection Heq as Hr Hn Hf'; subst root fn f'.
  exists files; split; assumption.
Qed.

(** In a tree whose entries bear proper names, the names that lead to a
    file, and the name of the file, are proper names. *)
Lemma well_named_tree_files :
  forall n : node,
    well_named n = true ->
    forall (ds : list string) (fname : string) (f : file),
      In (ds, fname, f) (tree_files n) ->
      Forall (fun s => entry_name s = true) (ds ++ [fname]).
Proof.
  fix IH 1; intros [f0 | es] Hwn ds fname f Hin; [ contradiction | ].
  cbn [tree_files well_named] in Hwn, Hin; apply in_app_or in Hin.
  induction es as [ | [name x] es IHes];
    [ destruct Hin as [[] | []] | ].
  pose proof (IH x) as IHx.
  apply andb_true_iff in Hwn; destruct Hwn as [Hwn Hrest].
  apply andb_true_iff in Hwn; destruct Hwn as [Hname Hx].
  destruct x as [f1 | es1].
  - cbn [nondirs map] in Hin; destruct Hin as [[Heq | Hin] | Hin].
    + cbn [fst snd] in Heq; injection Heq as <- <- <-.
      constructor; [ exact Hname | constructor ].
    + apply IHes; [ exact Hrest | left; exact Hin ].
    + apply IHes; [ exact Hrest | right; exact Hin ].
  - cbn [nondirs] in Hin; destruct Hin as [Hin | Hin].
    + apply IHes; [ exact Hrest | left; exact Hin ].
    + apply in_app_or in Hin; destruct Hin as [Hin | Hin].
      * apply in_map_iff in Hin; destruct Hin as ([[ds' fn] f'] & Heq & Hin).
        cbn [fst snd] in Heq; injection Heq as <- <- <-.
        cbn [app]; constructor; [ exact Hname | ].
        apply (IHx Hx ds' fn f' Hin).
      * apply IHes; [ exact Hrest | right; exact Hin ].
Qed.

Lemma flat_map_option_length {X Y : Type} (g : X -> option Y) (l : list X) :
  (List.length (flat_map (fun x => option_list (g x)) l) <= List.length l)%nat.
Proof.
  induction l as [ | x l IH]; [ apply le_n | ].
  cbn [flat_map]; rewrite length_app; destruct (g x); cbn [option_list List.length app];
    lia.
Qed.

Lemma flat_map_flat_map {X Y W : Type} (g : X -> list Y) (h : Y -> list W)
    (l : list X) :
  flat_map h (flat_map g l) = flat_map (fun x => flat_map h (g x)) l.
Proof.
  induction l as [ | x l IH]; [ reflexivity | ].
  cbn [flat_map]; rewrite flat_map_app, IH; reflexivity.
Qed.

Lemma flat_map_map {X Y W : Type} (g : X -> Y) (h : Y -> list W)
    (l : list X) :
  flat_map h (map g l) = flat_map (fun x => h (g x)) l.
Proof.
  induction l as [ | x l IH]; [ reflexivity | ].
  cbn [flat_map map]; rewrite IH; reflexivity.
Qed.

(** The rows of a tree are the rows of its files, one file after the
    other. *)
Lemma tree_rows_tree_files (cwd name repo_path : string) (tree : listing) :
  tree_rows cwd name repo_path tree
  = flat_map
      (fun t : list string * string * file =>
         option_list
           (file_row cwd name repo_path
              (fold_left join (fst (fst t)) repo_path) (snd (fst t)) (snd t)))
      (tree_files (Dir tree)).
Proof.
  unfold tree_rows.
  rewrite <- (flat_map_map
                (fun t : list string * string * file =>
                   (fold_left join (fst (fst t)) repo_path, snd (fst t), snd t))
                (fun x : string * string * file =>
                   option_list
                     (file_row cwd name repo_path (fst (fst x)) (snd (fst x))
                        (snd x)))).
  rewrite <- walk_tree_files, flat_map_flat_map.
  apply flat_map_ext; intros [root files]; unfold directory_rows.
  rewrite flat_map_map; reflexivity.
Qed.

(** The working copy of a repository with a proper name, once on disk, is
    what [index_repository] walks. *)
Lemma index_repository_tree_rows (name : string) (st : App)
    (es tree : listing) :
  entry_name name = true ->
  root st = Some es ->
  lookup_entry name es = Some (Dir tree) ->
  table (index_repository name st)
  = (table st
     ++ tree_rows (cwd st) name (join (repos_dir st) name) tree)%list.
Proof.
  intros Hname Hroot Hentry.
  destruct (entry_name_spec name Hname) as (Hsep & Hne & Hdot).
  destruct (index_repository_effect name st) as (Ht & _).
  rewrite (os_walk_working_copy name st es tree Hsep Hne Hdot Hroot Hentry)
    in Ht.
  exact Ht.
Qed.

(** X9.  The columns of every row that [index_repository] stores for the
    working copy of a repository: the repository name is the argument, the
    file name is the name of a regular file of the working copy, the path
    is the names of the directories that lead to the file from the top of
    the working copy and the name of the file, with a slash between them
    (so neither the repositories root nor the working directory shows in
    it), and the time stamp is that of the file. *)
Theorem index_repository_stores_relative_paths (name : string) (st : App)
    (es tree : listing) :
  entry_name name = true ->
  isabs (cwd st) = true ->
  root st = Some es ->
  lookup_entry name es = Some (Dir tree) ->
  well_named (Dir tree) = true ->
  exists kept,
    table (index_repository name st) = (table st ++ kept)%list
    /\ forall row, In row kept ->
         exists ds f,
           In (ds, filename row, f) (tree_files (Dir tree))
           /\ repo_name row = name
           /\ filepath row = String.concat "/" (ds ++ [filename row])
           /\ last_modified row = mtime_isoformat f.
Proof.
  intros Hname Hcwd Hroot Hentry Hwn.
  eexists; split;
    [ apply (index_repository_tree_rows name st es tree Hname Hroot Hentry) | ].
  intros row Hrow; rewrite tree_rows_tree_files in Hrow.
  apply in_flat_map in Hrow; destruct Hrow as ([[ds fn] f] & Hin & Hrow).
  cbn [fst snd] in Hrow.
  destruct (file_row _ _ _ _ fn f) as [row' | ] eqn:Hsome;
    [ | contradiction ].
  destruct Hrow as [-> | []].
  destruct (file_row_fields _ _ _ _ _ _ _ Hsome) as (Hrn & Hfn & Hlm & Hrel).
  subst fn; exists ds, f; split; [ exact Hin | ].
  split; [ exact Hrn | ].
  split; [ | exact Hlm ].
  pose proof (well_named_tree_files _ Hwn _ _ _ Hin) as Hall.
  change (join (fold_left join ds (join (repos_dir st) name)) (filename row))
    with (fold_left join [filename row]
            (fold_left join ds (join (repos_dir st) name))) in Hrel.
  rewrite <- fold_left_app, relpath_below in Hrel;
    [ | exact Hcwd | exact Hall | destruct ds; discriminate ].
  injection Hrel as <-; apply join_all_names; exact Hall.
Qed.

(** X10.  Every regular file of the working copy that passes the filters
    of the walker (at most 1,000,000 bytes, readable, valid UTF-8), its
    names and time stamp being text, has its row in the index after
    [index_repository]: the content is the decoded text of the file with
    the line ends read as newlines. *)
Theorem index_repository_indexes_every_text_file (name : string) (st : App)
    (es tree : listing) (ds : list string) (fname : string) (f : file) :
  entry_name name = true ->
  isabs (cwd st) = true ->
  root st = Some es ->
  lookup_entry name es = Some (Dir tree) ->
  well_named (Dir tree) = true ->
  In (ds, fname, f) (tree_files (Dir tree)) ->
  Z.of_nat (List.length (data f)) <= 1000000 ->
  readable f = true ->
  Utf8.valid (string_of_list_byte (data f)) = true ->
  Utf8.valid name = true ->
  Utf8.valid (String.concat "/" (ds ++ [fname])) = true ->
  Utf8.valid fname = true ->
  Utf8.valid (mtime_isoformat f) = true ->
  In {| repo_name := name;
        filepath := String.concat "/" (ds ++ [fname]);
        filename := fname;
        content := Utf8.universal_newlines (string_of_list_byte (data f));
        last_modified := mtime_isoformat f |}
     (table (index_repository name st))
  /\ committed (index_repository name st) = table (index_repository name st).
Proof.
  intros Hname Hcwd Hroot Hentry Hwn Hin Hsize Hread Hvalid Hn Hp Hf Hm.
  split; [ | apply index_repository_effect ].
  rewrite (index_repository_tree_rows name st es tree Hname Hroot Hentry).
  apply in_or_app; right; rewrite tree_rows_tree_files.
  apply in_flat_map; exists (ds, fname, f); split; [ exact Hin | ].
  cbn [fst snd].
  pose proof (well_named_tree_files _ Hwn _ _ _ Hin) as Hall.
  assert (Hrel : relpath (cwd st)
                   (join (fold_left join ds (join (repos_dir st) name)) fname)
                   (join (repos_dir st) name)
                 = Return (String.concat "/" (ds ++ [fname]))).
  { change (join (fold_left join ds (join (repos_dir st) name)) fname)
      with (fold_left join [fname]
              (fold_left join ds (join (repos_dir st) name))).
    rewrite <- fold_left_app, relpath_below;
      [ | exact Hcwd | exact Hall | destruct ds; discriminate ].
    rewrite (join_all_names _ Hall); reflexivity. }
  rewrite (file_row_text_file _ _ _ _ _ _ _ Hsize Hread Hvalid Hrel Hn Hp Hf Hm).
  left; reflexivity.
Qed.

(** X11.  [index_repository] adds at most one row for each regular file of
    the working copy, whatever the files hold. *)
Theorem index_repository_one_row_per_file (name : string) (st : App)
    (es tree : listing) :
  entry_name name = true ->
  root st = Some es ->
  lookup_entry name es = Some (Dir tree) ->
  (List.length (table (index_repository name st))
   <= List.length (table st) + files_below (Dir tree))%nat.
Proof.
  intros Hname Hroot Hentry.
  rewrite (index_repository_tree_rows name st es tree Hname Hroot Hentry).
  rewrite length_app, tree_rows_tree_files, <- tree_files_count.
  apply Nat.add_le_mono_l, flat_map_option_length.
Qed.

(** X12.  [index_repository] does not look at what the index holds: it
    does not replace the rows of the repository, and a second call for the
    same repository stores every row of the first call once more. *)
Theorem index_repository_twice_stores_rows_twice (name : string) (st : App) :
  exists kept,
    table (index_repository name st) = (table st ++ kept)%list
    /\ table (index_repository name (index_repository name st))
       = (table st ++ kept ++ kept)%list.
Proof.
  destruct (index_repository_effect name st) as (Ht & Hd & _).
  destruct (index_repository_effect name (index_repository name st))
    as (Ht2 & _).
  eexists; split; [ exact Ht | ].
  rewrite Ht2, Ht, <- app_assoc.
  destruct Hd as (Hdir & Hcwd & Hroot).
  unfold os_walk; rewrite Hdir, Hcwd, Hroot; reflexivity.
Qed.

(** X13.  A repository that has no working copy below the repositories
    root (it was never fetched, or a regular file bears its name) is not an
    error for [index_repository]: it stores no row, prints nothing, and
    commits what the index holds. *)
Theorem index_repository_without_working_copy (name : string) (st : App)
    (es : listing) :
  entry_name name = true ->
  root st = Some es ->
  (forall tree, lookup_entry name es <> Some (Dir tree)) ->
  index_repository name st = commit st.
Proof.
  intros Hname Hroot Hnone.
  destruct (entry_name_spec name Hname) as (Hsep & Hne & Hdot).
  unfold index_repository, os_walk.
  rewrite (join_not_empty _ _ Hne Hsep), (place_of_join _ _ Hsep Hne Hdot).
  rewrite Hroot.
  destruct (lookup_entry name es) as [[f | tree] | ];
    [ reflexivity | exfalso; apply (Hnone tree); reflexivity | reflexivity ].
Qed.

Lemma universal_newlines_no_cr_bounded (n : nat) :
  forall s : string,
    (String.length s <= n)%nat ->
    has_char Utf8.CR (Utf8.universal_newlines s) = false.
Proof.
  induction n as [ | n IH]; intros s Hlen.
  - destruct s; [ reflexivity | cbn in Hlen; lia ].
  - destruct s as [ | a r]; [ reflexivity | ].
    cbn [Utf8.universal_newlines String.length] in *.
    destruct (Ascii.eqb a Utf8.CR) eqn:Ha; cbn [has_char].
    + change (Ascii.eqb Utf8.LF Utf8.CR) with false; cbn [orb].
      destruct r as [ | b r']; [ reflexivity | ].
      cbn [String.length] in Hlen.
      destruct (Ascii.eqb b Utf8.LF); apply IH; cbn [String.length]; lia.
    + rewrite Ha; cbn [orb]; apply IH; lia.
Qed.

(** X14.  The content that [index_repository] stores holds no carriage
    return: the files are opened in text mode, where the line ends of
    Windows and of the old Mac OS are read as newlines. *)
Theorem index_repository_content_without_carriage_return (name : string)
    (st : App) :
  exists kept,
    table (index_repository name st) = (table st ++ kept)%list
    /\ forall row, In row kept -> has_char Utf8.CR (content row) = false.
Proof.
  destruct (index_repository_rows name st) as (kept & Ht & Hkept).
  exists kept; split; [ exact Ht | ].
  intros row Hrow.
  destruct (Hkept row Hrow) as (root & files & fname & f & _ & _ & Hsome).
  destruct (file_row_some _ _ _ _ _ _ _ Hsome) as (_ & _ & _ & -> & _).
  apply (universal_newlines_no_cr_bounded _ _ (le_n _)).
Qed.

End WalkerResults.

Lemma index_repository_stores_relative_paths_witness :
  exists kept,
    table (index_repository "proj" demo_disk)
    = (table demo_disk ++ kept)%list
    /\ forall row, In row kept ->
         exists ds f,
           In (ds, filename row, f) (tree_files (Dir demo_tree))
           /\ repo_name row = "proj"
           /\ filepath row = String.concat "/" (ds ++ [filename row])
           /\ last_modified row = mtime_isoformat f.
Proof.
  apply (index_repository_stores_relative_paths "proj" demo_disk
           [("proj", Dir demo_tree)] demo_tree); reflexivity.
Defined.

Lemma index_repository_indexes_every_text_file_witness :
  In {| repo_name := "proj"; filepath := "src/main.py";
        filename := "main.py"; content := "print('hello')";
        last_modified := "2024-05-01T12:00:00" |}
     (table (index_repository "proj" demo_disk)).
Proof.
  apply (index_repository_indexes_every_text_file "proj" demo_disk
           [("proj", Dir demo_tree)] demo_tree ["src"] "main.py" main_py);
    try reflexivity.
  - right; left; reflexivity.
  - vm_compute; discriminate.
Defined.

Lemma index_repository_one_row_per_file_witness :
  (List.length (table (index_repository "proj" demo_disk))
   <= List.length (table demo_disk) + files_below (Dir demo_tree))%nat.
Proof.
  apply (index_repository_one_row_per_file "proj" demo_disk
           [("proj", Dir demo_tree)] demo_tree); reflexivity.
Defined.

Lemma index_repository_without_working_copy_witness :
  index_repository "ghost" demo_disk = commit demo_disk.
Proof.
  apply (index_repository_without_working_copy "ghost" demo_disk
           [("proj", Dir demo_tree)]);
    [ reflexivity | reflexivity | intros tree; vm_compute; discriminate ].
Defined.

(** * What a run of the orchestrator leaves *)

Section OrchestratorResults.

Import PosixPath.

Context {E : Engine}.

Variable remote : Remote.

Lemma entry_name_intro (s : string) :
  has_char sep s = false -> s <> "" -> is_dot s = false ->
  entry_name s = true.
Proof.
  intros Hsep Hne Hdot; unfold entry_name.
  apply String.eqb_neq in Hne; rewrite Hsep, Hne, Hdot; reflexivity.
Qed.

(** The rows of a location bear the name derived from it, and there are
    none unless the location can be fetched under a name that is not
    empty. *)
Lemma location_rows_row (cwd repos_dir repo_url : string) (row : Row) :
  In row (location_rows remote cwd repos_dir repo_url) ->
  exists tree,
    remote repo_url = Some tree
    /\ url_repo_name repo_url <> ""
    /\ repo_name row = url_repo_name repo_url.
Proof.
  unfold location_rows.
  destruct (String.eqb_spec (url_repo_name repo_url) "") as [ | Hne];
    cbn [orb]; [ contradiction | ].
  destruct (is_dot (url_repo_name repo_url)); [ contradiction | ].
  destruct (remote repo_url) as [tree | ]; [ | contradiction ].
  unfold tree_rows; intros Hrow; exists tree.
  split; [ reflexivity | ].
  split; [ exact Hne | ].
  apply in_flat_map in Hrow; destruct Hrow as (entry & _ & Hrow).
  destruct (in_directory_rows _ _ _ _ _ Hrow) as (fname & f & _ & Hsome).
  apply (file_row_fields _ _ _ _ _ _ _ Hsome).
Qed.

Lemma location_rows_unreachable (cwd repos_dir repo_url : string) :
  remote repo_url = None -> location_rows remote cwd repos_dir repo_url = [].
Proof.
  intros Hnone; unfold location_rows; rewrite Hnone.
  destruct (_ || _); reflexivity.
Qed.

Lemma flat_map_unreachable (cwd repos_dir : string)
    (repo_urls : list string) :
  (forall repo_url, In repo_url repo_urls -> remote repo_url = None) ->
  flat_map (location_rows remote cwd repos_dir) repo_urls = [].
Proof.
  induction repo_urls as [ | u l IH]; intros Hfail; [ reflexivity | ].
  cbn [flat_map]; rewrite location_rows_unreachable, IH.
  - reflexivity.
  - intros v Hv; apply Hfail; right; exact Hv.
  - apply Hfail; left; reflexivity.
Qed.

(** X15.  When none of the locations can be fetched (the empty list of
    locations included), each of them being, with its working-copy path,
    an argument that a process can take, a run of [index_repositories]
    still completes, and it leaves the index empty, the deletion committed:
    the rows of the previous run are lost, not kept. *)
Theorem index_repositories_all_fetches_fail (repo_urls : list string)
    (st : App) :
  (forall repo_url,
     In repo_url repo_urls -> clone_arguments (repos_dir st) repo_url = true) ->
  (forall repo_url, In repo_url repo_urls -> remote repo_url = None) ->
  exists st',
    index_repositories remote repo_urls st = (Return tt, st')
    /\ table st' = []
    /\ committed st' = [].
Proof.
  intros _ Hfail; unfold index_repositories.
  destruct (index_each_spec remote repo_urls (commit (execute_delete st)))
    as (st' & Hrun & Ht & _ & _ & Hm).
  rewrite (flat_map_unreachable _ _ repo_urls Hfail) in Ht.
  cbn [commit execute_delete set_cursor set_table table app] in Ht.
  exists st'; split; [ exact Hrun | ].
  split; [ exact Ht | ].
  rewrite (Hm eq_refl); exact Ht.
Qed.

(** X16.  After a run of [index_repositories], whatever the index held
    before, every hit that [search_files] returns names a repository of the
    run: its first field is the name derived from one of the listed
    locations, which the run could fetch, and is not empty. *)
Theorem search_after_run_names_listed_locations (repo_urls : list string)
    (st : App) :
  exists st',
    index_repositories remote repo_urls st = (Return tt, st')
    /\ forall (query : string) (limit : option Z) (hits : list Hit)
         (h : Hit),
         fst (search_files query limit st') = Return hits ->
         In h hits ->
         exists repo_url tree,
           In repo_url repo_urls
           /\ remote repo_url = Some tree
           /\ url_repo_name repo_url <> ""
           /\ fst (fst (fst h)) = url_repo_name repo_url.
Proof.
  destruct (index_repositories_closed_form remote repo_urls st)
    as (st' & Hrun & Ht).
  exists st'; split; [ exact Hrun | ].
  intros query limit hits h Hret Hin.
  destruct (search_files_hit query limit st' hits h Hret Hin)
    as (q & r & _ & Hr & _ & -> & _).
  rewrite Ht in Hr; apply in_flat_map in Hr.
  destruct Hr as (repo_url & Hurl & Hrow).
  destruct (location_rows_row _ _ _ _ Hrow) as (tree & Hremote & Hne & Hname).
  exists repo_url, tree; repeat split; assumption.
Qed.

(** X17.  The index outlives the process: a run of [index_repositories]
    commits what it stores, so that an application constructed afterwards
    over the same repositories root and database finds the rows of the run
    in its table, and [search_files] answers every query as it did before
    the restart. *)
Theorem index_survives_restart (repo_urls : list string) (st : App)
    (query : string) (limit : option Z) :
  repos_dir st <> "" ->
  exists st' app,
    index_repositories remote repo_urls st = (Return tt, st')
    /\ __init__ (repos_dir st') (cwd st') (root st') (committed st')
       = Return app
    /\ table app = table st'
    /\ fst (search_files query limit app)
       = fst (search_files query limit st').
Proof.
  intros Hdir; unfold index_repositories.
  destruct (index_each_spec remote repo_urls (commit (execute_delete st)))
    as (st' & Hrun & _ & Hd & _ & Hm).
  cbn [commit execute_delete set_cursor set_table repos_dir] in Hd.
  exists st'; unfold __init__; rewrite Hd.
  destruct (String.eqb_spec (repos_dir st) "") as [ | _]; [ contradiction | ].
  eexists; split; [ exact Hrun | ].
  split; [ reflexivity | ].
  assert (Htable : committed st' = table st') by (apply Hm; reflexivity).
  split; [ exact Htable | ].
  apply search_files_reads_the_table; exact Htable.
Qed.

(** X18.  [setup_initial_repos] completes whatever the remote end answers
    and whatever the index held: afterwards the index holds, committed, the
    rows of the working copy of "strompris" followed by those of "k8slab",
    and no row of another repository. *)
Theorem setup_initial_repos_indexes_two_repositories (st : App) :
  exists st',
    setup_initial_repos remote st = (Return tt, st')
    /\ committed st' = table st'
    /\ table st'
       = (location_rows remote (cwd st) (repos_dir st)
            "https://github.com/runarhageland/strompris.git"
          ++ location_rows remote (cwd st) (repos_dir st)
               "https://github.com/runarhageland/k8slab.git")%list
    /\ forall row, In row (table st') ->
         repo_name row = "strompris" \/ repo_name row = "k8slab".
Proof.
  unfold setup_initial_repos, index_repositories.
  destruct (index_each_spec remote repos_to_index (commit (execute_delete st)))
    as (st' & Hrun & Ht & _ & _ & Hm).
  cbn [commit execute_delete set_cursor set_table table cwd repos_dir
       repos_to_index flat_map app] in Ht.
  rewrite app_nil_r in Ht.
  exists st'; split; [ exact Hrun | ].
  split; [ apply Hm; reflexivity | ].
  split; [ exact Ht | ].
  intros row Hrow; rewrite Ht in Hrow; apply in_app_or in Hrow.
  destruct Hrow as [Hrow | Hrow];
    destruct (location_rows_row _ _ _ _ Hrow) as (_ & _ & _ & ->);
    [ left | right ]; vm_compute; reflexivity.
Qed.

(** X19.  Two locations that end in the same segment share one repository
    name and one working copy: a run over both stores the rows of the first
    and then those of the second under that one name, and the working copy
    left on disk is that of the second. *)
Theorem index_repositories_same_name_locations (u1 u2 : string)
    (t1 t2 : listing) (st : App) :
  url_repo_name u1 <> "" ->
  is_dot (url_repo_name u1) = false ->
  url_repo_name u2 = url_repo_name u1 ->
  remote u1 = Some t1 ->
  remote u2 = Some t2 ->
  exists st' es,
    index_repositories remote [u1; u2] st = (Return tt, st')
    /\ table st'
       = (tree_rows (cwd st) (url_repo_name u1)
            (join (repos_dir st) (url_repo_name u1)) t1
          ++ tree_rows (cwd st) (url_repo_name u1)
               (join (repos_dir st) (url_repo_name u1)) t2)%list
    /\ root st' = Some es
    /\ lookup_entry (url_repo_name u1) es = Some (Dir t2).
Proof.
  intros Hne Hdot Hsame Hr1 Hr2.
  pose proof (url_repo_name_no_sep u1) as Hsep.
  pose proof (entry_name_intro _ Hsep Hne Hdot) as Hname.
  assert (Htruthy : truthy (Some (url_repo_name u1)) = true)
    by (unfold truthy; apply String.eqb_neq in Hne; rewrite Hne; reflexivity).
  unfold index_repositories; cbn [index_each].
  set (st0 := commit (execute_delete st)).
  destruct (clone_repo_ok remote u1 st0 t1 Hne Hdot Hr1)
    as (st1 & Hc1 & (Hd1 & Hw1 & Ht1 & _) & _ & es1 & Hroot1 & He1).
  rewrite Hc1, Htruthy.
  set (st1' := index_repository (url_repo_name u1) st1).
  assert (Hne2 : url_repo_name u2 <> "") by (rewrite Hsame; exact Hne).
  assert (Hdot2 : is_dot (url_repo_name u2) = false)
    by (rewrite Hsame; exact Hdot).
  destruct (clone_repo_ok remote u2 st1' t2 Hne2 Hdot2 Hr2)
    as (st2 & Hc2 & (Hd2 & Hw2 & Ht2 & _) & _ & es2 & Hroot2 & He2).
  rewrite Hc2, Hsame, Htruthy.
  rewrite Hsame in He2.
  destruct (index_repository_effect (url_repo_name u1) st1)
    as (_ & (Hd1' & Hw1' & _) & _).
  fold st1' in Hd1', Hw1'.
  destruct (index_repository_effect (url_repo_name u1) st2)
    as (_ & (_ & _ & Hroot') & _).
  exists (index_repository (url_repo_name u1) st2), es2.
  split; [ reflexivity | ].
  split; [ | split; [ rewrite Hroot'; exact Hroot2 | exact He2 ] ].
  rewrite (index_repository_tree_rows _ st2 es2 t2 Hname Hroot2 He2).
  rewrite Ht2; unfold st1'.
  rewrite (index_repository_tree_rows _ st1 es1 t1 Hname Hroot1 He1).
  rewrite Ht1, Hd2, Hw2, Hd1', Hw1', Hd1, Hw1; reflexivity.
Qed.

End OrchestratorResults.

Lemma index_repositories_all_fetches_fail_witness :
  exists st',
    index_repositories demo_remote ["https://nowhere.invalid/x.git"]
      (with_rows five_hello)
    = (Return tt, st')
    /\ table st' = []
    /\ committed st' = [].
Proof.
  apply (index_repositories_all_fetches_fail demo_remote
           ["https://nowhere.invalid/x.git"] (with_rows five_hello));
    intros repo_url [<- | []]; reflexivity.
Defined.

Lemma index_survives_restart_witness :
  exists st' app,
    index_repositories demo_remote ["https://github.com/team/proj.git"] fresh
    = (Return tt, st')
    /\ __init__ (repos_dir st') (cwd st') (root st') (committed st')
       = Return app
    /\ table app = table st'
    /\ fst (@search_files fts5_fragment "hello" None app)
       = fst (@search_files fts5_fragment "hello" None st').
Proof.
  apply (@index_survives_restart fts5_fragment demo_remote
           ["https://github.com/team/proj.git"] fresh "hello" None).
  discriminate.
Defined.

Lemma index_repositories_same_name_locations_witness :
  exists st' es,
    index_repositories fork_remote
      ["https://github.com/team/proj.git"; "https://github.com/fork/proj.git"]
      fresh
    = (Return tt, st')
    /\ table st'
       = (tree_rows "/srv/app" "proj" "repos/proj" demo_tree
          ++ tree_rows "/srv/app" "proj" "repos/proj" fork_tree)%list
    /\ root st' = Some es
    /\ lookup_entry "proj" es = Some (Dir fork_tree).
Proof.
  apply (index_repositories_same_name_locations fork_remote
           "https://github.com/team/proj.git"
           "https://github.com/fork/proj.git" demo_tree fork_tree fresh);
    try reflexivity.
  vm_compute; discriminate.
Defined.

(** * Two runs in succession *)

Section Reruns.

Import PosixPath.

Lemma tree_files_restamp :
  forall (n : node) (t : string),
    tree_files (restamp t n)
    = map (fun x : list string * string * file =>
             (fst (fst x), snd (fst x), set_mtime t (snd x)))
          (tree_files n).
Proof.
  fix IH 1; intros [f | es] t; [ reflexivity | ].
  cbn [restamp tree_files]; rewrite map_app, map_map; cbn [fst snd].
  f_equal.
  - induction es as [ | [name x] es IHes]; [ reflexivity | ].
    destruct x as [f | es']; cbn [restamp nondirs map fst snd];
      [ f_equal | ]; exact IHes.
  - induction es as [ | [name x] es IHes]; [ reflexivity | ].
    pose proof (IH x t) as IHx.
    destruct x as [f | es']; [ exact IHes | ].
    rewrite map_app, IHes, IHx, !map_map; reflexivity.
Qed.

Lemma text_stamps_tree_files :
  forall n : node,
    text_stamps n = true ->
    forall (ds : list string) (fname : string) (f : file),
      In (ds, fname, f) (tree_files n) ->
      Utf8.valid (mtime_isoformat f) = true.
Proof.
  fix IH 1; intros [f0 | es] Hts ds fname f Hin; [ contradiction | ].
  cbn [tree_files text_stamps] in Hts, Hin; apply in_app_or in Hin.
  induction es as [ | [name x] es IHes];
    [ destruct Hin as [[] | []] | ].
  pose proof (IH x) as IHx.
  apply andb_true_iff in Hts; destruct Hts as [Hx Hrest].
  destruct x as [f1 | es1].
  - cbn [nondirs map] in Hin; destruct Hin as [[Heq | Hin] | Hin].
    + cbn [fst snd] in Heq; injection Heq as <- <- <-; exact Hx.
    + apply IHes; [ exact Hrest | left; exact Hin ].
    + apply IHes; [ exact Hrest | right; exact Hin ].
  - cbn [nondirs] in Hin; destruct Hin as [Hin | Hin].
    + apply IHes; [ exact Hrest | left; exact Hin ].
    + apply in_app_or in Hin; destruct Hin as [Hin | Hin].
      * apply in_map_iff in Hin; destruct Hin as ([[ds' fn] f'] & Heq & Hin).
        cbn [fst snd] in Heq; injection Heq as <- <- <-.
        apply (IHx Hx ds' fn f' Hin).
      * apply IHes; [ exact Hrest | right; exact Hin ].
Qed.

(** The time stamp of a file, when it is text, decides nothing of its row
    but the column [last_modified]. *)
Lemma unstamped_file_row (cwd name repo_path root fname : string)
    (f : file) :
  Utf8.valid (mtime_isoformat f) = true ->
  option_map unstamped (file_row cwd name repo_path root fname f)
  = option_map unstamped
      (file_row cwd name repo_path root fname (set_mtime "" f)).
Proof.
  intros Hm; unfold file_row, set_mtime.
  cbn [data readable mtime_isoformat].
  destruct (1000000 <? Z.of_nat (List.length (data f))); [ reflexivity | ].
  destruct (readable f); cbn [negb]; [ | reflexivity ].
  destruct (Utf8.valid (string_of_list_byte (data f))); cbn [negb];
    [ | reflexivity ].
  destruct (relpath cwd (join root fname) repo_path) as [rel | e];
    [ | reflexivity ].
  cbn [columns forallb repo_name filepath filename content last_modified].
  rewrite Hm; change (Utf8.valid "") with true.
  destruct (Utf8.valid name && _); reflexivity.
Qed.

Lemma unstamped_tree_rows (cwd name repo_path : string) (tree : listing) :
  text_stamps (Dir tree) = true ->
  map unstamped (tree_rows cwd name repo_path tree)
  = flat_map
      (fun x : list string * string * file =>
         option_list
           (option_map unstamped
              (file_row cwd name repo_path
                 (fold_left join (fst (fst x)) repo_path) (snd (fst x))
                 (snd x))))
      (tree_files (restamp "" (Dir tree))).
Proof.
  intros Hts; rewrite tree_rows_tree_files, tree_files_restamp, flat_map_map.
  pose proof (text_stamps_tree_files _ Hts) as Hl.
  induction (tree_files (Dir tree)) as [ | [[ds fn] f] l IH];
    [ reflexivity | ].
  cbn [flat_map fst snd]; rewrite map_app, IH.
  - f_equal.
    rewrite <- unstamped_file_row by (apply (Hl ds fn); left; reflexivity).
    destruct (file_row _ _ _ _ fn f); reflexivity.
  - intros ds' fn' f' Hin; apply (Hl ds' fn'); right; exact Hin.
Qed.

Lemma unstamped_location_rows (remote1 remote2 : Remote)
    (cwd repos_dir repo_url : string) :
  same_checkouts remote1 remote2 repo_url ->
  map unstamped (location_rows remote1 cwd repos_dir repo_url)
  = map unstamped (location_rows remote2 cwd repos_dir repo_url).
Proof.
  unfold same_checkouts, location_rows.
  destruct (_ || _); [ reflexivity | ].
  destruct (remote1 repo_url) as [tree1 | ], (remote2 repo_url) as [tree2 | ];
    try contradiction; [ | reflexivity ].
  intros (Hsame & H1 & H2).
  rewrite !unstamped_tree_rows by assumption.
  unfold same_content in Hsame; rewrite Hsame; reflexivity.
Qed.

Lemma unstamped_run_rows (remote1 remote2 : Remote) (cwd repos_dir : string)
    (repo_urls : list string) :
  (forall repo_url,
     In repo_url repo_urls -> same_checkouts remote1 remote2 repo_url) ->
  map unstamped (flat_map (location_rows remote1 cwd repos_dir) repo_urls)
  = map unstamped (flat_map (location_rows remote2 cwd repos_dir) repo_urls).
Proof.
  induction repo_urls as [ | u l IH]; intros Hsame; [ reflexivity | ].
  cbn [flat_map]; rewrite !map_app, IH.
  - rewrite (unstamped_location_rows remote1 remote2)
      by (apply Hsame; left; reflexivity).
    reflexivity.
  - intros v Hv; apply Hsame; right; exact Hv.
Qed.

(** C8.  Two runs of [index_repositories] in succession over the same
    locations, the fetches of the second run materializing the content of
    those of the first (the same files with the same bytes, checked out at
    a later time), both complete, and the index holds after the second run
    the rows it held after the first, in the same order, up to the column
    [last_modified]: repository name, path, file name and content of the
    rows are the same, and each run commits its rows.  The locations and
    working-copy paths are arguments that a process can take. *)
Theorem index_repositories_twice_same_rows_but_stamps
    (remote1 remote2 : Remote) (repo_urls : list string) (st : App) :
  (forall repo_url,
     In repo_url repo_urls -> clone_arguments (repos_dir st) repo_url = true) ->
  (forall repo_url,
     In repo_url repo_urls -> same_checkouts remote1 remote2 repo_url) ->
  exists st1 st2,
    index_repositories remote1 repo_urls st = (Return tt, st1)
    /\ index_repositories remote2 repo_urls st1 = (Return tt, st2)
    /\ map unstamped (table st2) = map unstamped (table st1)
    /\ committed st1 = table st1
    /\ committed st2 = table st2.
Proof.
  intros _ Hsame; unfold index_repositories.
  destruct (index_each_spec remote1 repo_urls (commit (execute_delete st)))
    as (st1 & Hrun1 & Ht1 & Hd1 & Hc1 & Hm1).
  destruct (index_each_spec remote2 repo_urls (commit (execute_delete st1)))
    as (st2 & Hrun2 & Ht2 & Hd2 & Hc2 & Hm2).
  exists st1, st2; split; [ exact Hrun1 | ].
  split; [ exact Hrun2 | ].
  cbn [commit execute_delete set_cursor set_table table cwd repos_dir
       committed app] in *.
  split; [ | split; [ apply Hm1 | apply Hm2 ]; reflexivity ].
  rewrite Ht2, Ht1, Hd1, Hc1; symmetry.
  apply unstamped_run_rows; exact Hsame.
Qed.

End Reruns.

Lemma index_repositories_twice_same_rows_but_stamps_witness :
  exists st1 st2,
    index_repositories demo_remote ["https://github.com/team/proj.git"] fresh
    = (Return tt, st1)
    /\ index_repositories later_remote ["https://github.com/team/proj.git"]
         st1
       = (Return tt, st2)
    /\ map unstamped (table st2) = map unstamped (table st1)
    /\ committed st1 = table st1
    /\ committed st2 = table st2.
Proof.
  apply (index_repositories_twice_same_rows_but_stamps demo_remote
           later_remote ["https://github.com/team/proj.git"] fresh);
    intros repo_url [<- | []]; vm_compute; repeat split.
Defined.

(** C8, as the specification has it, fails: the second run fetches again,
    and the file that the second fetch checks out bears the time of that
    fetch.  Two fetches of one location with the same bytes, a day apart:
    the row of [README.md] that the index holds after the first run is not
    in the index after the second, which holds the row with the later time
    stamp in its place. *)
Lemma index_repositories_second_run_changes_rows :
  same_checkouts demo_remote later_remote "https://github.com/team/proj.git"
  /\ exists st1 st2,
       index_repositories demo_remote ["https://github.com/team/proj.git"]
         fresh
       = (Return tt, st1)
       /\ index_repositories later_remote
            ["https://github.com/team/proj.git"] st1
          = (Return tt, st2)
       /\ In readme_row (table st1)
       /\ ~ In readme_row (table st2)
       /\ table st2 <> table st1.
Proof.
  split; [ vm_compute; repeat split | ].
  eexists; eexists.
  split; [ vm_compute; reflexivity | ].
  split; [ vm_compute; reflexivity | ].
  split; [ vm_compute; left; reflexivity | ].
  split; [ vm_compute; intros [H | [H | []]]; discriminate | ].
  vm_compute; discriminate.
Qed.
